(** * wandr.ai: the text recovery parser and the plan orchestrator

    A shallow embedding of [src/main.py]: [parse_json] (the three-stage
    recovery of a JSON value from model output), the [/api/plan] handler
    [plan] and the catch-all route [serve].

    Python strings are sequences of Unicode code points; they are modelled
    as lists of code points ([N]).  The library functions the source calls
    ([str.strip], [re.sub], [re.search], [json.loads]) are modelled after
    their CPython behaviour, each next to the line of the source that uses
    it. *)

From Stdlib Require Import String Ascii DecimalString.
From Stdlib Require Import List NArith ZArith Bool Lia.
Import ListNotations.

Local Open Scope N_scope.

(** ** Text *)

Definition text := list N.

(** Code point of an ASCII character. *)
Definition ch (a : ascii) : N := N_of_ascii a.

Fixpoint of_string (s : string) : text :=
  match s with
  | EmptyString => []
  | String a s' => ch a :: of_string s'
  end.

Definition DQUOTE : N := 34.
Definition APOSTROPHE : N := 39.
Definition BACKSLASH : N := 92.
Definition BACKTICK : N := 96.
Definition LBRACE : N := 123.
Definition RBRACE : N := 125.
Definition LBRACKET : N := 91.
Definition RBRACKET : N := 93.
Definition COMMA : N := 44.
Definition COLON : N := 58.
Definition NEWLINE : N := 10.

(** Python literals that contain the double quote are written here with an
    apostrophe in its place: [lit "{'a':1}"] is the Python string
    [{"a":1}]. *)
Definition lit (s : string) : text :=
  map (fun c => if c =? APOSTROPHE then DQUOTE else c) (of_string s).

(** [Py_UNICODE_ISSPACE]: the characters removed by [str.strip()] and
    matched by [\s] in a [str] pattern. *)
Definition isspace (c : N) : bool :=
  ((0x09 <=? c) && (c <=? 0x0D)) || ((0x1C <=? c) && (c <=? 0x20))
  || (c =? 0x85) || (c =? 0xA0) || (c =? 0x1680)
  || ((0x2000 <=? c) && (c <=? 0x200A))
  || (c =? 0x2028) || (c =? 0x2029) || (c =? 0x202F) || (c =? 0x205F)
  || (c =? 0x3000).

Fixpoint lstrip (s : text) : text :=
  match s with
  | [] => []
  | c :: s' => if isspace c then lstrip s' else s
  end.

Definition rstrip (s : text) : text := rev (lstrip (rev s)).

(** [s.strip()] *)
Definition strip (s : text) : text := rstrip (lstrip s).

(** [s] with the prefix [p] removed, when [s] starts with [p]. *)
Fixpoint strip_prefix (p s : text) : option text :=
  match p with
  | [] => Some s
  | a :: p' =>
      match s with
      | [] => None
      | b :: s' => if a =? b then strip_prefix p' s' else None
      end
  end.

(** Does [p] occur in [s] as a contiguous run? *)
Fixpoint occurs (p s : text) : bool :=
  match strip_prefix p s with
  | Some _ => true
  | None => match s with [] => false | _ :: s' => occurs p s' end
  end.

(** ** Stage 1: fence stripping *)

Definition FENCE : text := [BACKTICK; BACKTICK; BACKTICK].
Definition FENCE_JSON : text := FENCE ++ of_string "json".

(** [re.sub(fence + r'\s*', '', s)] for a literal, non-empty [fence]: the
    leftmost match is the first position where [fence] starts; the greedy
    [\s*] takes all the white space after it; the scan resumes after the
    match.  [fuel] bounds the number of scan steps; [length s] is enough. *)
Fixpoint re_sub_fence_from (fuel : nat) (fence s : text) : text :=
  match fuel with
  | O => s
  | S fuel' =>
      match strip_prefix fence s with
      | Some rest => re_sub_fence_from fuel' fence (lstrip rest)
      | None =>
          match s with
          | [] => []
          | c :: s' => c :: re_sub_fence_from fuel' fence s'
          end
      end
  end.

Definition re_sub_fence (fence s : text) : text :=
  re_sub_fence_from (length s) fence s.

(** The first two statements of [parse_json]:
    [text = re.sub(r'```json\s*', '', text.strip())] and
    [text = re.sub(r'```\s*', '', text).strip()]. *)
Definition strip_fences (t : text) : text :=
  strip (re_sub_fence FENCE (re_sub_fence FENCE_JSON (strip t))).

(** ** Stage 2: the start of the decode *)

Definition is_open (c : N) : bool := (c =? LBRACE) || (c =? LBRACKET).

(** [next((i for i, c in enumerate(text) if p(c)), default)] without the
    default. *)
Fixpoint first_index (p : N -> bool) (s : text) : option nat :=
  match s with
  | [] => None
  | c :: s' => if p c then Some O else option_map S (first_index p s')
  end.

Definition start_index (s : text) : nat :=
  match first_index is_open s with
  | Some i => i
  | None => O
  end.

(** ** Stage 3: the greedy brace span *)

(** The longest prefix of [s] that ends with a closing brace: what the
    greedy [.*\}] matches at the start of [s] under [re.DOTALL]. *)
Fixpoint upto_last_rbrace (s : text) : option text :=
  match s with
  | [] => None
  | c :: s' =>
      match upto_last_rbrace s' with
      | Some m => Some (c :: m)
      | None => if c =? RBRACE then Some [c] else None
      end
  end.

(** [re.search(r'\{.*\}', s, re.DOTALL)], giving [m.group()]: the start
    positions are tried from the left. *)
Fixpoint re_search_braces (s : text) : option text :=
  match s with
  | [] => None
  | c :: s' =>
      if c =? LBRACE then
        match upto_last_rbrace s' with
        | Some m => Some (c :: m)
        | None => re_search_braces s'
        end
      else re_search_braces s'
  end.

(** ** The JSON decoder: [json.loads]

    The result of [json.loads] is a Python object.  A [dict] is kept as the
    list of its items in insertion order; a [float] is kept as the literal
    handed to [float()] (so the model separates [1.0] from [1.00], which
    Python does not); [NaN], [Infinity] and [-Infinity] are floats.
    Resource errors of the interpreter (recursion depth, the digit limit of
    [int()]) are outside the model. *)

#[warnings="-register-all"]
Inductive value : Type :=
| JNull
| JBool (b : bool)
| JInt (z : Z)
| JFloat (literal : text)
| JString (s : text)
| JArray (items : list value)
| JObject (items : list (text * value)).

(** [d[k] = v] on an insertion-ordered dict. *)
Fixpoint dict_set (k : text) (v : value) (d : list (text * value))
  : list (text * value) :=
  match d with
  | [] => [(k, v)]
  | (k', v') :: d' =>
      if list_eq_dec N.eq_dec k k' then (k', v) :: d'
      else (k', v') :: dict_set k v d'
  end.

(** [dict(pairs)] *)
Definition dict (pairs : list (text * value)) : list (text * value) :=
  fold_left (fun d kv => dict_set (fst kv) (snd kv) d) pairs [].

(** [d.get(k)] *)
Fixpoint dict_lookup (k : text) (d : list (text * value)) : option value :=
  match d with
  | [] => None
  | (k', v) :: d' =>
      if list_eq_dec N.eq_dec k k' then Some v else dict_lookup k d'
  end.

(** The outcome of a scan at a position: a value and the text after it, a
    decode error, or a recursion budget that was too small (which the
    budget of [json_loads] excludes, see [scan_once_fuel]). *)
Inductive scan (A : Type) : Type :=
| Scanned (a : A) (rest : text)
| NoValue
| Exhausted.
Arguments Scanned {A} a rest.
Arguments NoValue {A}.
Arguments Exhausted {A}.

Definition scan_map {A B : Type} (f : A -> B) (r : scan A) : scan B :=
  match r with
  | Scanned a rest => Scanned (f a) rest
  | NoValue => NoValue
  | Exhausted => Exhausted
  end.

(** [WHITESPACE = re.compile(r'[ \t\n\r]*')] *)
Definition is_json_ws (c : N) : bool :=
  (c =? 0x20) || (c =? 0x09) || (c =? 0x0A) || (c =? 0x0D).

Fixpoint skip_ws (s : text) : text :=
  match s with
  | [] => []
  | c :: s' => if is_json_ws c then skip_ws s' else s
  end.

Definition is_digit (c : N) : bool := (ch "0" <=? c) && (c <=? ch "9").

Definition hex_digit (c : N) : option N :=
  if is_digit c then Some (c - ch "0")
  else if (ch "a" <=? c) && (c <=? ch "f") then Some (c - ch "a" + 10)
  else if (ch "A" <=? c) && (c <=? ch "F") then Some (c - ch "A" + 10)
  else None.

(** [_decode_uXXXX]: four hexadecimal digits. *)
Definition hex4 (a b c d : N) : option N :=
  match hex_digit a, hex_digit b, hex_digit c, hex_digit d with
  | Some x, Some y, Some z, Some w => Some (((x * 16 + y) * 16 + z) * 16 + w)
  | _, _, _, _ => None
  end.

(** The [BACKSLASH] table of [json.decoder]. *)
Definition unescape (e : N) : option N :=
  if e =? DQUOTE then Some DQUOTE
  else if e =? BACKSLASH then Some BACKSLASH
  else if e =? ch "/" then Some (ch "/")
  else if e =? ch "b" then Some 0x08
  else if e =? ch "f" then Some 0x0C
  else if e =? ch "n" then Some 0x0A
  else if e =? ch "r" then Some 0x0D
  else if e =? ch "t" then Some 0x09
  else None.

Definition is_high_surrogate (u : N) : bool := (0xD800 <=? u) && (u <=? 0xDBFF).
Definition is_low_surrogate (u : N) : bool := (0xDC00 <=? u) && (u <=? 0xDFFF).
Definition join_surrogates (u u2 : N) : N :=
  0x10000 + N.lor (N.shiftl (u - 0xD800) 10) (u2 - 0xDC00).

Definition push (c : N) (r : option (text * text)) : option (text * text) :=
  match r with
  | Some (str, rest) => Some (c :: str, rest)
  | None => None
  end.

(** [scanstring(s, end, strict=True)], from the character after the
    opening quote: the decoded string and the text after the closing
    quote. *)
Fixpoint scanstring (s : text) : option (text * text) :=
  match s with
  | [] => None
  | c :: s' =>
      if c =? DQUOTE then Some ([], s')
      else if c =? BACKSLASH then
        match s' with
        | [] => None
        | e :: s'' =>
            if e =? ch "u" then
              match s'' with
              | h1 :: h2 :: h3 :: h4 :: r =>
                  match hex4 h1 h2 h3 h4 with
                  | None => None
                  | Some uni =>
                      if is_high_surrogate uni then
                        match r with
                        | b :: u :: r2 =>
                            if (b =? BACKSLASH) && (u =? ch "u") then
                              match r2 with
                              | g1 :: g2 :: g3 :: g4 :: r' =>
                                  match hex4 g1 g2 g3 g4 with
                                  | None => None
                                  | Some uni2 =>
                                      if is_low_surrogate uni2
                                      then push (join_surrogates uni uni2)
                                                (scanstring r')
                                      else push uni (scanstring r)
                                  end
                              | _ => None
                              end
                            else push uni (scanstring r)
                        | _ => push uni (scanstring r)
                        end
                      else push uni (scanstring r)
                  end
              | _ => None
              end
            else
              match unescape e with
              | Some c' => push c' (scanstring s'')
              | None => None
              end
        end
      else if c <? 0x20 then None
      else push c (scanstring s')
  end.

(** *** Numbers

    [NUMBER_RE] has three groups: the integer part (an optional minus sign,
    then either a single zero or a non-zero digit followed by digits), the
    optional fraction (a dot and at least one digit) and the optional
    exponent (e or E, an optional sign, at least one digit). *)

Fixpoint span_digits (s : text) : text * text :=
  match s with
  | [] => ([], [])
  | c :: s' =>
      if is_digit c
      then let (d, r) := span_digits s' in (c :: d, r)
      else ([], s)
  end.

(** Group 1 *)
Definition match_integer (s : text) : option (text * text) :=
  let (sign, s1) :=
    match s with
    | c :: r => if c =? ch "-" then ([c], r) else ([], s)
    | [] => ([], s)
    end in
  match s1 with
  | [] => None
  | c :: r =>
      if c =? ch "0" then Some (sign ++ [c], r)
      else if is_digit c
           then let (d, r') := span_digits r in Some (sign ++ c :: d, r')
           else None
  end.

(** Group 2, when it takes part in the match *)
Definition match_frac (s : text) : option (text * text) :=
  match s with
  | [] => None
  | c :: r =>
      if c =? ch "." then
        match span_digits r with
        | ([], _) => None
        | (d, r') => Some (c :: d, r')
        end
      else None
  end.

(** Group 3, when it takes part in the match *)
Definition match_exp (s : text) : option (text * text) :=
  match s with
  | [] => None
  | e :: r =>
      if (e =? ch "e") || (e =? ch "E") then
        let (sign, r1) :=
          match r with
          | c :: r' => if (c =? ch "-") || (c =? ch "+") then ([c], r') else ([], r)
          | [] => ([], r)
          end in
        match span_digits r1 with
        | ([], _) => None
        | (d, r2) => Some (e :: sign ++ d, r2)
        end
      else None
  end.

(** [int(digits)] for an optional minus sign and decimal digits. *)
Definition int_of_digits (ds : text) : Z :=
  fold_left (fun acc c => (acc * 10 + Z.of_N (c - ch "0"))%Z) ds 0%Z.

Definition parse_int (s : text) : Z :=
  match s with
  | c :: r => if c =? ch "-" then (- int_of_digits r)%Z else int_of_digits s
  | [] => 0%Z
  end.

(** [match_number] and the conversion that follows it in [_scan_once]. *)
Definition scan_number (s : text) : option (value * text) :=
  match match_integer s with
  | None => None
  | Some (integer, r1) =>
      let (frac, r2) :=
        match match_frac r1 with
        | Some (f, r) => (f, r)
        | None => ([], r1)
        end in
      let (exp, r3) :=
        match match_exp r2 with
        | Some (e, r) => (e, r)
        | None => ([], r2)
        end in
      match frac ++ exp with
      | [] => Some (JInt (parse_int integer), r3)
      | _ => Some (JFloat (integer ++ frac ++ exp), r3)
      end
  end.

(** The branches of [_scan_once] that are neither string, object nor
    array, in the order of the source. *)
Definition scan_atom (s : text) : option (value * text) :=
  match strip_prefix (of_string "null") s with
  | Some r => Some (JNull, r)
  | None =>
  match strip_prefix (of_string "true") s with
  | Some r => Some (JBool true, r)
  | None =>
  match strip_prefix (of_string "false") s with
  | Some r => Some (JBool false, r)
  | None =>
  match scan_number s with
  | Some vr => Some vr
  | None =>
  match strip_prefix (of_string "NaN") s with
  | Some r => Some (JFloat (of_string "NaN"), r)
  | None =>
  match strip_prefix (of_string "Infinity") s with
  | Some r => Some (JFloat (of_string "Infinity"), r)
  | None =>
  match strip_prefix (of_string "-Infinity") s with
  | Some r => Some (JFloat (of_string "-Infinity"), r)
  | None => None
  end end end end end end end.

Section Containers.

(** The scanner for the nested values ([scan_once] in the source). *)
Variable scan_value : text -> scan value.

(** The [while True] loop of [JSONArray], from the first character of an
    element. *)
Fixpoint array_items (k : nat) (s : text) : scan (list value) :=
  match k with
  | O => Exhausted
  | S k' =>
      match scan_value s with
      | Scanned v r =>
          match skip_ws r with
          | [] => NoValue
          | d :: r1 =>
              if d =? RBRACKET then Scanned [v] r1
              else if d =? COMMA then
                scan_map (cons v) (array_items k' (skip_ws r1))
              else NoValue
          end
      | NoValue => NoValue
      | Exhausted => Exhausted
      end
  end.

(** [JSONArray], from the character after the opening bracket. *)
Definition JSONArray (k : nat) (s : text) : scan value :=
  match skip_ws s with
  | [] => NoValue
  | c :: r =>
      if c =? RBRACKET then Scanned (JArray []) r
      else scan_map JArray (array_items k (c :: r))
  end.

(** The [while True] loop of [JSONObject], from the character after the
    opening quote of a key. *)
Fixpoint object_pairs (k : nat) (s : text) : scan (list (text * value)) :=
  match k with
  | O => Exhausted
  | S k' =>
      match scanstring s with
      | None => NoValue
      | Some (key, r) =>
          match skip_ws r with
          | [] => NoValue
          | c :: r1 =>
              if c =? COLON then
                match scan_value (skip_ws r1) with
                | Scanned v r2 =>
                    match skip_ws r2 with
                    | [] => NoValue
                    | d :: r3 =>
                        if d =? RBRACE then Scanned [(key, v)] r3
                        else if d =? COMMA then
                          match skip_ws r3 with
                          | [] => NoValue
                          | q :: r4 =>
                              if q =? DQUOTE
                              then scan_map (cons (key, v)) (object_pairs k' r4)
                              else NoValue
                          end
                        else NoValue
                    end
                | NoValue => NoValue
                | Exhausted => Exhausted
                end
              else NoValue
          end
      end
  end.

(** [JSONObject], from the character after the opening brace. *)
Definition JSONObject (k : nat) (s : text) : scan value :=
  match skip_ws s with
  | [] => NoValue
  | c :: r =>
      if c =? RBRACE then Scanned (JObject []) r
      else if c =? DQUOTE
           then scan_map (fun ps => JObject (dict ps)) (object_pairs k r)
           else NoValue
  end.

End Containers.

(** [_scan_once(string, idx)] *)
Fixpoint scan_once (fuel : nat) (s : text) : scan value :=
  match fuel with
  | O => Exhausted
  | S fuel' =>
      match s with
      | [] => NoValue
      | c :: s' =>
          if c =? DQUOTE then
            match scanstring s' with
            | Some (str, r) => Scanned (JString str) r
            | None => NoValue
            end
          else if c =? LBRACE then JSONObject (scan_once fuel') fuel' s'
          else if c =? LBRACKET then JSONArray (scan_once fuel') fuel' s'
          else
            match scan_atom s with
            | Some (v, r) => Scanned v r
            | None => NoValue
            end
      end
  end.

Definition BOM : N := 0xFEFF.

(** [json.loads(s)]: [None] stands for a raised exception. *)
Definition json_loads (s : text) : option value :=
  match strip_prefix [BOM] s with
  | Some _ => None
  | None =>
      match scan_once (S (length s)) (skip_ws s) with
      | Scanned v r =>
          match skip_ws r with
          | [] => Some v
          | _ :: _ => None
          end
      | NoValue => None
      | Exhausted => None
      end
  end.

(** ** [parse_json] *)

(** What a call does: return a value or let an exception propagate. *)
Inductive outcome : Type :=
| Returned (v : value)
| Raised.

Definition EMPTY : value := JObject [].

Definition parse_json (t : text) : outcome :=
  let text := strip_fences t in
  let start := start_index text in
  match json_loads (skipn start text) with
  | Some v => Returned v
  | None =>
      match re_search_braces text with
      | Some m =>
          match json_loads m with
          | Some v => Returned v
          | None => Raised
          end
      | None => Returned EMPTY
      end
  end.

(** ** The interpreter state behind [parse_json]

    [parse_json] keeps nothing of its own between two calls, but the
    library functions it calls do: module [re] keeps the patterns it has
    compiled in the dict [re._cache], and [json.loads] decodes with the one
    default decoder of module [json], whose scanner interns the keys of
    the objects it decodes in a dict [memo].  The definitions below run
    [parse_json] over that state. *)

(** The pattern arguments of [parse_json], with their flags:
    [r'```json\s*'], [r'```\s*'] and [r'\{.*\}'] with [re.DOTALL]. *)
Inductive pattern : Type :=
| PAT_JSON_FENCE
| PAT_FENCE
| PAT_BRACES.

(** A compiled pattern: a literal followed by [\s*], or [\{.*\}] under
    [re.DOTALL]. *)
Inductive regex : Type :=
| FenceSpaces (fence : text)
| BraceSpan.

(** [_compiler.compile(pattern, flags)] *)
Definition re_compile (p : pattern) : regex :=
  match p with
  | PAT_JSON_FENCE => FenceSpaces FENCE_JSON
  | PAT_FENCE => FenceSpaces FENCE
  | PAT_BRACES => BraceSpan
  end.

(** The white space at the start of [s]: what a greedy [\s*] takes. *)
Fixpoint span_space (s : text) : text :=
  match s with
  | [] => []
  | c :: s' => if isspace c then c :: span_space s' else []
  end.

(** [Pattern.search(s).group()] of a literal followed by [\s*]. *)
Fixpoint re_search_fence (fence s : text) : option text :=
  match strip_prefix fence s with
  | Some rest => Some (fence ++ span_space rest)
  | None =>
      match s with
      | [] => None
      | _ :: s' => re_search_fence fence s'
      end
  end.

(** What follows the last closing brace of [s]. *)
Fixpoint after_last_rbrace (s : text) : option text :=
  match s with
  | [] => None
  | c :: s' =>
      match after_last_rbrace s' with
      | Some r => Some r
      | None => if c =? RBRACE then Some s' else None
      end
  end.

(** [Pattern.sub('', s)] of [\{.*\}] under [re.DOTALL]: the one match runs
    from the first opening brace that has a closing brace after it to the
    last closing brace. *)
Fixpoint re_sub_braces (s : text) : text :=
  match s with
  | [] => []
  | c :: s' =>
      if c =? LBRACE then
        match after_last_rbrace s' with
        | Some r => r
        | None => c :: re_sub_braces s'
        end
      else c :: re_sub_braces s'
  end.

(** [Pattern.sub('', s)] *)
Definition regex_sub (r : regex) (s : text) : text :=
  match r with
  | FenceSpaces fence => re_sub_fence fence s
  | BraceSpan => re_sub_braces s
  end.

(** [Pattern.search(s)], giving [m.group()]. *)
Definition regex_search (r : regex) (s : text) : option text :=
  match r with
  | FenceSpaces fence => re_search_fence fence s
  | BraceSpan => re_search_braces s
  end.

(** The state: [re._cache], oldest entry first, and the [memo] of the
    default decoder. *)
Record interp : Type := {
  re_cache : list (pattern * regex);
  memo : list (text * text)
}.

(** The state of a fresh interpreter. *)
Definition fresh : interp := {| re_cache := []; memo := [] |}.

Definition pattern_eqb (p q : pattern) : bool :=
  match p, q with
  | PAT_JSON_FENCE, PAT_JSON_FENCE => true
  | PAT_FENCE, PAT_FENCE => true
  | PAT_BRACES, PAT_BRACES => true
  | _, _ => false
  end.

(** [_cache[key]] *)
Fixpoint cache_get (p : pattern) (cache : list (pattern * regex))
  : option regex :=
  match cache with
  | [] => None
  | (q, r) :: rest => if pattern_eqb p q then Some r else cache_get p rest
  end.

Definition MAXCACHE : nat := 512.

(** [re._compile(pattern, flags)]: the cached object when there is one;
    otherwise the pattern is compiled and cached, after the oldest entry
    is dropped from a full cache. *)
Definition re_compile_st (p : pattern) (st : interp) : regex * interp :=
  match cache_get p (re_cache st) with
  | Some r => (r, st)
  | None =>
      let r := re_compile p in
      let kept := if Nat.leb MAXCACHE (length (re_cache st))
                  then tl (re_cache st) else re_cache st in
      (r, {| re_cache := kept ++ [(p, r)]; memo := memo st |})
  end.

(** [re.sub(pattern, '', s)] *)
Definition re_sub_st (p : pattern) (s : text) (st : interp) : text * interp :=
  let (r, st') := re_compile_st p st in (regex_sub r s, st').

(** [re.search(pattern, s, flags)], giving [m.group()]. *)
Definition re_search_st (p : pattern) (s : text) (st : interp)
  : option text * interp :=
  let (r, st') := re_compile_st p st in (regex_search r s, st').

(** [memo.get(key)] *)
Fixpoint memo_get (key : text) (m : list (text * text)) : option text :=
  match m with
  | [] => None
  | (k, v) :: rest =>
      if list_eq_dec N.eq_dec key k then Some v else memo_get key rest
  end.

(** [memo.setdefault(key, key)]: the string stored under [key], which is
    [key] itself once stored. *)
Definition memo_setdefault (key : text) (m : list (text * text))
  : text * list (text * text) :=
  match memo_get key m with
  | Some stored => (stored, m)
  | None => (key, m ++ [(key, key)])
  end.

Section ContainersSt.

(** The scanner for the nested values, over the memo. *)
Variable scan_value_st :
  text -> list (text * text) -> scan value * list (text * text).

(** The loop of [JSONArray]; it passes the memo on. *)
Fixpoint array_items_st (k : nat) (s : text) (m : list (text * text))
  : scan (list value) * list (text * text) :=
  match k with
  | O => (Exhausted, m)
  | S k' =>
      match scan_value_st s m with
      | (Scanned v r, m1) =>
          match skip_ws r with
          | [] => (NoValue, m1)
          | d :: r1 =>
              if d =? RBRACKET then (Scanned [v] r1, m1)
              else if d =? COMMA then
                let (items, m2) := array_items_st k' (skip_ws r1) m1 in
                (scan_map (cons v) items, m2)
              else (NoValue, m1)
          end
      | (NoValue, m1) => (NoValue, m1)
      | (Exhausted, m1) => (Exhausted, m1)
      end
  end.

Definition JSONArray_st (k : nat) (s : text) (m : list (text * text))
  : scan value * list (text * text) :=
  match skip_ws s with
  | [] => (NoValue, m)
  | c :: r =>
      if c =? RBRACKET then (Scanned (JArray []) r, m)
      else let (items, m1) := array_items_st k (c :: r) m in
           (scan_map JArray items, m1)
  end.

(** The loop of [JSONObject]: every key goes through
    [key = memo_get(key, key)], where [memo_get] is [memo.setdefault]. *)
Fixpoint object_pairs_st (k : nat) (s : text) (m : list (text * text))
  : scan (list (text * value)) * list (text * text) :=
  match k with
  | O => (Exhausted, m)
  | S k' =>
      match scanstring s with
      | None => (NoValue, m)
      | Some (scanned, r) =>
          let (key, m0) := memo_setdefault scanned m in
          match skip_ws r with
          | [] => (NoValue, m0)
          | c :: r1 =>
              if c =? COLON then
                match scan_value_st (skip_ws r1) m0 with
                | (Scanned v r2, m1) =>
                    match skip_ws r2 with
                    | [] => (NoValue, m1)
                    | d :: r3 =>
                        if d =? RBRACE then (Scanned [(key, v)] r3, m1)
                        else if d =? COMMA then
                          match skip_ws r3 with
                          | [] => (NoValue, m1)
                          | q :: r4 =>
                              if q =? DQUOTE
                              then let (ps, m2) := object_pairs_st k' r4 m1 in
                                   (scan_map (cons (key, v)) ps, m2)
                              else (NoValue, m1)
                          end
                        else (NoValue, m1)
                    end
                | (NoValue, m1) => (NoValue, m1)
                | (Exhausted, m1) => (Exhausted, m1)
                end
              else (NoValue, m0)
          end
      end
  end.

Definition JSONObject_st (k : nat) (s : text) (m : list (text * text))
  : scan value * list (text * text) :=
  match skip_ws s with
  | [] => (NoValue, m)
  | c :: r =>
      if c =? RBRACE then (Scanned (JObject []) r, m)
      else if c =? DQUOTE
           then let (ps, m1) := object_pairs_st k r m in
                (scan_map (fun ps => JObject (dict ps)) ps, m1)
           else (NoValue, m)
  end.

End ContainersSt.

(** [_scan_once(string, idx)], over the memo. *)
Fixpoint scan_once_st (fuel : nat) (s : text) (m : list (text * text))
  : scan value * list (text * text) :=
  match fuel with
  | O => (Exhausted, m)
  | S fuel' =>
      match s with
      | [] => (NoValue, m)
      | c :: s' =>
          if c =? DQUOTE then
            match scanstring s' with
            | Some (str, r) => (Scanned (JString str) r, m)
            | None => (NoValue, m)
            end
          else if c =? LBRACE
               then JSONObject_st (scan_once_st fuel') fuel' s' m
          else if c =? LBRACKET
               then JSONArray_st (scan_once_st fuel') fuel' s' m
          else
            match scan_atom s with
            | Some (v, r) => (Scanned v r, m)
            | None => (NoValue, m)
            end
      end
  end.

(** [json.loads(s)] with the default decoder: the check for a byte order
    mark comes before the scan; the scan ends, whatever its result, with
    [memo.clear()]. *)
Definition json_loads_st (s : text) (st : interp) : option value * interp :=
  match strip_prefix [BOM] s with
  | Some _ => (None, st)
  | None =>
      let (res, _) := scan_once_st (S (length s)) (skip_ws s) (memo st) in
      (match res with
       | Scanned v r =>
           match skip_ws r with
           | [] => Some v
           | _ :: _ => None
           end
       | NoValue => None
       | Exhausted => None
       end,
       {| re_cache := re_cache st; memo := [] |})
  end.

(** [parse_json], statement by statement, over the state. *)
Definition parse_json_st (t : text) (st : interp) : outcome * interp :=
  let (t1, st1) := re_sub_st PAT_JSON_FENCE (strip t) st in
  let (t2, st2) := re_sub_st PAT_FENCE t1 st1 in
  let text := strip t2 in
  let start := start_index text in
  match json_loads_st (skipn start text) st2 with
  | (Some v, st3) => (Returned v, st3)
  | (None, st3) =>
      match re_search_st PAT_BRACES text st3 with
      | (Some m, st4) =>
          match json_loads_st m st4 with
          | (Some v, st5) => (Returned v, st5)
          | (None, st5) => (Raised, st5)
          end
      | (None, st4) => (Returned EMPTY, st4)
      end
  end.

(** ** The HTTP handlers *)

(** The two prompt constants; only which of them a call carries matters
    here, not their wording. *)
Inductive system_prompt : Type := INTENT_SYS | PLAN_SYS.

(** The embedded page. *)
Inductive document : Type := HTML.

(** One [client.messages.create(...)] call, with the key the client was
    built with. *)
Record request : Type := {
  api_key : text;
  model : text;
  max_tokens : Z;
  system : system_prompt;
  content : text  (* the single user message *)
}.

(** What the service does with a call: [Text t] when [msg.content[0].text]
    is [t], [Failure] when the call or that access raises. *)
Inductive reply : Type :=
| Text (t : text)
| Failure.

(** The external service: its answer may depend on the calls made so far. *)
Definition service : Type := list request -> request -> reply.

Inductive response : Type :=
| HTMLResponse (body : document)                     (* status 200 *)
| JSONBody (v : value)                               (* a returned dict, status 200 *)
| HTTPException (status_code : Z) (detail : option text)
| Unhandled.                                         (* any other exception *)

Definition status (r : response) : Z :=
  match r with
  | HTMLResponse _ => 200
  | JSONBody _ => 200
  | HTTPException code _ => code
  | Unhandled => 500
  end.

(** A handler threads the log of outbound calls (latest last) and either
    finishes with a value or aborts with a response. *)
Inductive step (A : Type) : Type :=
| Done (a : A)
| Abort (r : response).
Arguments Done {A} a.
Arguments Abort {A} r.

Definition handler (A : Type) : Type := list request -> step A * list request.

Definition ret {A : Type} (a : A) : handler A := fun log => (Done a, log).

Definition raise {A : Type} (r : response) : handler A :=
  fun log => (Abort r, log).

Definition bind {A B : Type} (m : handler A) (f : A -> handler B) : handler B :=
  fun log =>
    match m log with
    | (Done a, log') => f a log'
    | (Abort r, log') => (Abort r, log')
    end.

Notation "x <- m ;; k" := (bind m (fun x => k))
  (at level 61, m at next level, right associativity).

(** [client.messages.create(...).content[0].text] *)
Definition create (llm : service) (req : request) : handler text :=
  fun log =>
    match llm log req with
    | Text t => (Done t, log ++ [req])
    | Failure => (Abort Unhandled, log ++ [req])
    end.

(** A call of [parse_json] inside a handler. *)
Definition parsed (t : text) : handler value :=
  match parse_json t with
  | Returned v => ret v
  | Raised => raise Unhandled
  end.

(** [intent.get(k, default)]; an [AttributeError] when [intent] is not a
    dict. *)
Definition get (intent : value) (k : text) (default : value) : option value :=
  match intent with
  | JObject d =>
      match dict_lookup k d with
      | Some v => Some v
      | None => Some default
      end
  | _ => None
  end.

Definition MODEL : text := of_string "claude-sonnet-4-20250514".
Definition KEY_NAME : text := of_string "ANTHROPIC_API_KEY".

Section Orchestrator.

(** Python's [json.dumps] and [str] (what an f-string field applies to
    its value). *)
Variable json_dumps : value -> text.
Variable py_str : value -> text.

(** The user message of the second call. *)
Definition plan_prompt (message : text) (intent : value) : option text :=
  match get intent (of_string "duration_days") (JInt 3),
        get intent (of_string "total_budget") (JInt 15000),
        get intent (of_string "destination") (JString (of_string "destination"))
  with
  | Some days, Some budget, Some destination =>
      Some (lit "User: '" ++ message ++ lit "'" ++ [NEWLINE]
            ++ of_string "Intent: " ++ json_dumps intent ++ [NEWLINE]
            ++ of_string "Generate ALL " ++ py_str days
            ++ of_string " days. Budget: " ++ py_str budget
            ++ of_string " INR. Destination: " ++ py_str destination
            ++ of_string ". Use real attraction names.")
  | _, _, _ => None
  end.

(** [POST /api/plan] *)
Definition plan (environ : text -> option text) (llm : service)
           (message : text) : handler value :=
  let key := match environ KEY_NAME with Some k => k | None => [] end in
  match key with
  | [] =>
      raise (HTTPException 500
               (Some (of_string "ANTHROPIC_API_KEY environment variable not set")))
  | _ :: _ =>
      intent_text <- create llm {| api_key := key; model := MODEL;
                                   max_tokens := 400; system := INTENT_SYS;
                                   content := message |} ;;
      intent <- parsed intent_text ;;
      match plan_prompt message intent with
      | None => raise Unhandled
      | Some prompt =>
          plan_text <- create llm {| api_key := key; model := MODEL;
                                     max_tokens := 4000; system := PLAN_SYS;
                                     content := prompt |} ;;
          plan_data <- parsed plan_text ;;
          ret (JObject [(of_string "intent", intent);
                        (of_string "plan", plan_data)])
      end
  end.

(** The response the framework sends for a run of [plan]. *)
Definition post_api_plan (environ : text -> option text) (llm : service)
           (message : text) : response * list request :=
  match plan environ llm message [] with
  | (Done body, calls) => (JSONBody body, calls)
  | (Abort r, calls) => (r, calls)
  end.

End Orchestrator.

(** [GET /api/health] *)
Definition health : response :=
  JSONBody (JObject [(of_string "status", JString (of_string "ok"));
                     (of_string "service", JString (of_string "wandr.ai"))]).

(** [path.startswith(prefix)] *)
Definition startswith (prefix path : text) : bool :=
  match strip_prefix prefix path with
  | Some _ => true
  | None => false
  end.

(** The catch-all [GET /{path:path}] (and [GET /], with [path = ""]). *)
Definition serve (path : text) : response :=
  if startswith (of_string "api/") path
  then HTTPException 404 None
  else HTMLResponse HTML.

(** Python's [str] on integers, strings, booleans and [None]; other values
    are left blank.  It only serves to run [plan] on examples. *)
Definition str_of_scalar (v : value) : text :=
  match v with
  | JNull => of_string "None"
  | JBool true => of_string "True"
  | JBool false => of_string "False"
  | JInt z => of_string (DecimalString.NilZero.string_of_int (Z.to_int z))
  | JString s => s
  | _ => []
  end.

(** ** The page script: [esc]

    [esc] is the function of the embedded page that every text taken from
    the server's answer goes through before it is put into [innerHTML]:
    [String(s||'').replace(/&/g,'&amp;').replace(/</g,'&lt;').replace(/>/g,'&gt;')].
    A JavaScript string is a sequence of UTF-16 code units, modelled as a
    [text].  The argument is taken to be a string; on a string, [s||'']
    is the string itself (the empty string is the only falsy one). *)

(** [s.replace(/c/g, by)] for a pattern that is the single character [c]
    and a replacement without dollar sign. *)
Definition js_replace_all (c : N) (by_text : text) (s : text) : text :=
  flat_map (fun x => if x =? c then by_text else [x]) s.

Definition esc (s : text) : text :=
  js_replace_all (ch ">") (of_string "&gt;")
    (js_replace_all (ch "<") (of_string "&lt;")
       (js_replace_all (ch "&") (of_string "&amp;") s)).

(** ** Notions used in the statements *)

(** [u] is [t] with some characters deleted. *)
Inductive Subseq : text -> text -> Prop :=
| Subseq_nil : Subseq [] []
| Subseq_keep c u t : Subseq u t -> Subseq (c :: u) (c :: t)
| Subseq_drop c u t : Subseq u t -> Subseq u (c :: t).

(** A text in braces: [{ m }]. *)
Definition braced (m : text) : text := LBRACE :: m ++ [RBRACE].

(** [f] leaves an occurrence of [s] in place, and only deletes around it. *)
Definition keeps (s : text) (f : text -> text) : Prop :=
  forall pre post, exists pre' post',
    f (pre ++ s ++ post) = pre' ++ s ++ post'
    /\ Subseq pre' pre /\ Subseq post' post.

(** Texts without [{] and [[], without [{], without [}]. *)
Definition no_open (s : text) : bool := forallb (fun c => negb (is_open c)) s.
Definition no_lbrace (s : text) : bool := forallb (fun c => negb (c =? LBRACE)) s.
Definition no_rbrace (s : text) : bool := forallb (fun c => negb (c =? RBRACE)) s.

(** A character that can follow a value inside an array or an object. *)
Definition is_delim (c : N) : bool :=
  is_json_ws c || (c =? COMMA) || (c =? RBRACE) || (c =? RBRACKET).

(** The text [r] starts with such a character. *)
Definition delim_next (r : text) : bool :=
  match r with
  | c :: _ => is_delim c
  | [] => false
  end.

(** A number ends where the next character cannot continue it; the other
    values end at a character of their own. *)
Definition needs_delim (v : value) : bool :=
  match v with
  | JInt _ | JFloat _ => true
  | _ => false
  end.

(** The scan of [v], which stopped before [r], does not depend on what
    comes after [r]. *)
Definition stable (v : value) (r : text) : bool :=
  negb (needs_delim v) || delim_next r.

(** [scan] answers on every text shorter than [n], and consumes input. *)
Definition total_below (n : nat) (scan : text -> scan value) : Prop :=
  forall s, (length s < n)%nat ->
            scan s <> Exhausted
            /\ forall v r, scan s = Scanned v r -> (length r < length s)%nat.

(** A dict or a list. *)
Definition is_container (v : value) : bool :=
  match v with
  | JArray _ | JObject _ => true
  | _ => false
  end.



(** The entries of [memo] are the ones [memo.setdefault(key, key)]
    writes. *)
Definition memo_ok (m : list (text * text)) : Prop :=
  forall k stored, In (k, stored) m -> stored = k.

(** The states the library keeps itself in: a cached object is the
    compiled form of its key, and a string of the memo is stored under
    itself. *)
Definition consistent (st : interp) : Prop :=
  (forall p r, In (p, r) (re_cache st) -> r = re_compile p)
  /\ memo_ok (memo st).

(** The states reached from a fresh interpreter by calls of
    [parse_json]. *)
Inductive reachable : interp -> Prop :=
| reach_fresh : reachable fresh
| reach_call (t : text) (st : interp) :
    reachable st -> reachable (snd (parse_json_st t st)).

(** [path] begins with [prefix]. *)
Definition has_prefix (prefix path : text) : Prop :=
  exists rest, path = prefix ++ rest.

(** A text in brackets: [[ m ]]. *)
Definition bracketed (m : text) : text := LBRACKET :: m ++ [RBRACKET].

(** The two calls of [plan], as the source writes them. *)
Definition intent_request (key message : text) : request :=
  {| api_key := key; model := MODEL; max_tokens := 400;
     system := INTENT_SYS; content := message |}.

Definition plan_request (key prompt : text) : request :=
  {| api_key := key; model := MODEL; max_tokens := 4000;
     system := PLAN_SYS; content := prompt |}.

(** What [esc] puts for one character. *)
Definition esc_char (c : N) : text :=
  if c =? ch "&" then of_string "&amp;"
  else if c =? ch "<" then of_string "&lt;"
  else if c =? ch ">" then of_string "&gt;"
  else [c].

(** * Properties *)

#[local] Arguments N.eqb : simpl never.
#[local] Arguments N.leb : simpl never.
#[local] Arguments N.ltb : simpl never.
#[local] Arguments ch : simpl never.

(** ** Texts, prefixes and white space *)

Lemma strip_prefix_mismatch (a b : N) (p s : text) :
  a <> b -> strip_prefix (a :: p) (b :: s) = None.
Proof.
  intros H. simpl. destruct (N.eqb_spec a b); [contradiction|reflexivity].
Qed.

Lemma strip_prefix_Some (p s r : text) :
  strip_prefix p s = Some r <-> s = p ++ r.
Proof.
  revert s; induction p as [|a p IH]; intros s; simpl.
  - split; intros H; [injection H as H|]; subst; reflexivity.
  - destruct s as [|b s]; [split; discriminate|].
    destruct (N.eqb_spec a b) as [->|ne].
    + rewrite IH. split; intros H; [subst; reflexivity|].
      injection H as H; exact H.
    + split; [discriminate|]. intros H; injection H as H _.
      symmetry in H; contradiction.
Qed.

Lemma strip_prefix_app (p s r post : text) :
  strip_prefix p s = Some r -> strip_prefix p (s ++ post) = Some (r ++ post).
Proof.
  rewrite !strip_prefix_Some. intros ->. now rewrite app_assoc.
Qed.

(** A prefix without closing brace that matches up to a closing brace
    matches before it. *)
Lemma strip_prefix_before (c : N) (p x post r : text) :
  ~ In c p ->
  strip_prefix p (x ++ c :: post) = Some r ->
  exists x', x = p ++ x'.
Proof.
  revert x; induction p as [|a p IH]; intros x Hc H.
  - now exists x.
  - destruct x as [|b x]; simpl in H.
    + destruct (N.eqb_spec a c) as [->|ne]; [|discriminate].
      exfalso; apply Hc; now left.
    + destruct (N.eqb_spec a b) as [->|ne]; [|discriminate].
      destruct (IH x) as [x' ->]; [intros Hin; apply Hc; now right|exact H|].
      now exists x'.
Qed.

Lemma occurs_cons (p : text) (c : N) (s : text) :
  occurs p (c :: s) = false -> occurs p s = false.
Proof.
  simpl. destruct (strip_prefix p (c :: s)); [discriminate|trivial].
Qed.

Lemma occurs_head (p s : text) :
  occurs p s = false -> strip_prefix p s = None.
Proof.
  destruct s; simpl; destruct (strip_prefix p _); congruence.
Qed.

Lemma occurs_app_r (p x y : text) :
  occurs p (x ++ y) = false -> occurs p y = false.
Proof.
  induction x as [|c x IH]; [trivial|].
  intros H. apply IH. exact (occurs_cons _ _ _ H).
Qed.

Lemma occurs_app_l (p x y : text) :
  occurs p (x ++ y) = false -> occurs p x = false.
Proof.
  induction x as [|c x IH]; intros H.
  - simpl. destruct p as [|a p]; [|reflexivity].
    simpl in H. destruct y; discriminate.
  - pose proof (occurs_head _ _ H) as Hh.
    pose proof (IH (occurs_cons _ _ _ H)) as Ht.
    change (occurs p (c :: x)) with
      (match strip_prefix p (c :: x) with
       | Some _ => true | None => occurs p x end).
    rewrite Ht. destruct (strip_prefix p (c :: x)) as [r|] eqn:E; [|reflexivity].
    pose proof (strip_prefix_app _ _ _ y E) as E'. congruence.
Qed.

Lemma lstrip_suffix (s : text) : exists w, s = w ++ lstrip s.
Proof.
  induction s as [|c s [w IH]]; [now exists []|]. simpl.
  destruct (isspace c); [|now exists []].
  exists (c :: w). simpl. now rewrite <- IH.
Qed.

Lemma rstrip_prefix (s : text) : exists w, s = rstrip s ++ w.
Proof.
  unfold rstrip. destruct (lstrip_suffix (rev s)) as [w H].
  exists (rev w). rewrite <- rev_app_distr, <- H. now rewrite rev_involutive.
Qed.

Lemma lstrip_app (pre : text) (c : N) (r : text) :
  isspace c = false -> lstrip (pre ++ c :: r) = lstrip pre ++ c :: r.
Proof.
  intros Hc. induction pre as [|a pre IH]; simpl.
  - now rewrite Hc.
  - destruct (isspace a); [exact IH|reflexivity].
Qed.

Lemma rstrip_app (a : text) (c : N) (post : text) :
  isspace c = false -> rstrip (a ++ c :: post) = a ++ c :: rstrip post.
Proof.
  intros Hc. unfold rstrip.
  rewrite rev_app_distr. simpl. rewrite <- app_assoc. simpl.
  rewrite (lstrip_app (rev post) c (rev a) Hc).
  rewrite rev_app_distr. simpl. rewrite rev_involutive.
  now rewrite <- app_assoc.
Qed.

(** ** What stage 1 keeps and what it deletes *)

#[local] Hint Constructors Subseq : core.

Lemma Subseq_refl (t : text) : Subseq t t.
Proof. induction t; auto. Qed.

Lemma Subseq_trans (a b c : text) : Subseq a b -> Subseq b c -> Subseq a c.
Proof.
  intros Hab Hbc; revert a Hab.
  induction Hbc; intros a Hab; auto.
  inversion Hab; subst; auto.
Qed.

Lemma Subseq_app_drop (w t : text) : Subseq t (w ++ t).
Proof. induction w; simpl; auto using Subseq_refl. Qed.

Lemma Subseq_drop_app (t w : text) : Subseq t (t ++ w).
Proof.
  induction t; simpl; auto. induction w; auto.
Qed.

Lemma Subseq_incl (u t : text) : Subseq u t -> incl u t.
Proof.
  induction 1; intros x Hx; simpl in *; intuition auto.
Qed.

Lemma lstrip_Subseq (s : text) : Subseq (lstrip s) s.
Proof.
  destruct (lstrip_suffix s) as [w H]. rewrite H at 2. apply Subseq_app_drop.
Qed.

Lemma rstrip_Subseq (s : text) : Subseq (rstrip s) s.
Proof.
  destruct (rstrip_prefix s) as [w H]. rewrite H at 2. apply Subseq_drop_app.
Qed.

Lemma strip_Subseq (s : text) : Subseq (strip s) s.
Proof.
  unfold strip. eapply Subseq_trans; [apply rstrip_Subseq|apply lstrip_Subseq].
Qed.

Lemma re_sub_fence_from_Subseq (fence : text) (n : nat) (s : text) :
  Subseq (re_sub_fence_from n fence s) s.
Proof.
  revert s; induction n as [|n IH]; intros s; simpl; [apply Subseq_refl|].
  destruct (strip_prefix fence s) as [rest|] eqn:E.
  - apply strip_prefix_Some in E. subst s.
    eapply Subseq_trans; [apply IH|].
    eapply Subseq_trans; [apply lstrip_Subseq|apply Subseq_app_drop].
  - destruct s; auto.
Qed.

Lemma strip_fences_Subseq (t : text) : Subseq (strip_fences t) t.
Proof.
  unfold strip_fences, re_sub_fence.
  repeat first [ apply strip_Subseq
               | eapply Subseq_trans; [apply strip_Subseq|]
               | eapply Subseq_trans; [apply re_sub_fence_from_Subseq|] ].
Qed.

Lemma Subseq_length (u t : text) : Subseq u t -> (length u <= length t)%nat.
Proof. induction 1; simpl; lia. Qed.

Lemma keeps_compose (s : text) (f g : text -> text) :
  keeps s f -> keeps s g -> keeps s (fun t => g (f t)).
Proof.
  intros Hf Hg pre post.
  destruct (Hf pre post) as (p1 & q1 & -> & Hp1 & Hq1).
  destruct (Hg p1 q1) as (p2 & q2 & -> & Hp2 & Hq2).
  exists p2, q2; eauto using Subseq_trans.
Qed.

Lemma strip_keeps (m : text) : keeps (braced m) strip.
Proof.
  intros pre post. exists (lstrip pre), (rstrip post).
  split; [|split; [apply lstrip_Subseq|apply rstrip_Subseq]].
  unfold strip, braced. simpl.
  rewrite lstrip_app by reflexivity.
  change (lstrip pre ++ LBRACE :: (m ++ [RBRACE]) ++ post)
    with (lstrip pre ++ (LBRACE :: m ++ [RBRACE]) ++ post).
  replace (lstrip pre ++ (LBRACE :: m ++ [RBRACE]) ++ post)
    with ((lstrip pre ++ LBRACE :: m) ++ RBRACE :: post)
    by (simpl; now rewrite <- !app_assoc).
  rewrite rstrip_app by reflexivity.
  simpl; now rewrite <- !app_assoc.
Qed.

Section FenceRemoval.

(** The two patterns of [parse_json] start with three backticks and
    contain no brace. *)
Variables fence tag : text.
Hypothesis fence_tag : fence = FENCE ++ tag.
Hypothesis tag_no_lbrace : ~ In LBRACE tag.

Lemma fence_no_lbrace : ~ In LBRACE fence.
Proof.
  rewrite fence_tag. unfold FENCE. simpl. intros [H|[H|[H|H]]]; try discriminate H.
  now apply tag_no_lbrace.
Qed.

Lemma re_sub_before (n : nat) :
  forall pre x,
    (length (pre ++ LBRACE :: x) <= n)%nat ->
    exists pre' k,
      re_sub_fence_from n fence (pre ++ LBRACE :: x)
      = pre' ++ re_sub_fence_from k fence (LBRACE :: x)
      /\ (length (LBRACE :: x) <= k)%nat /\ Subseq pre' pre.
Proof.
  induction n as [|n IH]; intros pre x Hn.
  - rewrite length_app in Hn; simpl in Hn; lia.
  - destruct pre as [|c p1].
    + exists [], (S n). simpl in *. repeat split; auto; lia.
    + cbn [re_sub_fence_from].
      destruct (strip_prefix fence ((c :: p1) ++ LBRACE :: x)) as [rest|] eqn:E.
      * destruct (strip_prefix_before _ _ _ _ _ fence_no_lbrace E) as [x' Hx'].
        apply strip_prefix_Some in E. rewrite Hx' in E.
        rewrite <- app_assoc in E. apply app_inv_head in E. subst rest.
        rewrite lstrip_app by reflexivity.
        assert (Hlen : (length (lstrip x' ++ LBRACE :: x) <= n)%nat).
        { pose proof (Subseq_length _ _ (lstrip_Subseq x')) as Hl.
          assert (Hf : (3 <= length fence)%nat)
            by (rewrite fence_tag, length_app; simpl; lia).
          rewrite Hx' in Hn. rewrite !length_app in *. simpl in *. lia. }
        destruct (IH _ _ Hlen) as (pre' & k & Heq & Hk & Hsub).
        exists pre', k. repeat split; auto.
        rewrite Hx'. eapply Subseq_trans; [exact Hsub|].
        eapply Subseq_trans; [apply lstrip_Subseq|apply Subseq_app_drop].
      * simpl app.
        assert (Hlen : (length (p1 ++ LBRACE :: x) <= n)%nat)
          by (simpl in Hn; lia).
        destruct (IH _ _ Hlen) as (pre' & k & Heq & Hk & Hsub).
        exists (c :: pre'), k. rewrite Heq. repeat split; auto.
Qed.

Lemma no_fence_no_match (x0 post : text) :
  occurs FENCE (x0 ++ [RBRACE]) = false ->
  strip_prefix fence (x0 ++ RBRACE :: post) = None.
Proof.
  intros Hocc.
  destruct (strip_prefix fence (x0 ++ RBRACE :: post)) as [r|] eqn:E; [|trivial].
  exfalso. apply strip_prefix_Some in E. rewrite fence_tag in E.
  rewrite <- app_assoc in E.
  apply strip_prefix_Some in E.
  apply strip_prefix_before in E.
  - destruct E as [x' ->].
    apply occurs_head in Hocc.
    rewrite <- app_assoc in Hocc.
    assert (H : strip_prefix FENCE (FENCE ++ x' ++ [RBRACE]) = Some (x' ++ [RBRACE]))
      by now apply strip_prefix_Some.
    congruence.
  - unfold FENCE. simpl. intros [H|[H|[H|[]]]]; discriminate H.
Qed.

Lemma re_sub_across (x0 : text) :
  forall n post,
    occurs FENCE (x0 ++ [RBRACE]) = false ->
    (length (x0 ++ RBRACE :: post) <= n)%nat ->
    exists k,
      re_sub_fence_from n fence (x0 ++ RBRACE :: post)
      = x0 ++ RBRACE :: re_sub_fence_from k fence post
      /\ (length post <= k)%nat.
Proof.
  induction x0 as [|c x0 IH]; intros n post Hocc Hn.
  - destruct n as [|n]; [simpl in Hn; lia|].
    cbn [re_sub_fence_from].
    rewrite (no_fence_no_match [] post Hocc). simpl.
    exists n. split; [reflexivity|simpl in Hn; lia].
  - destruct n as [|n]; [simpl in Hn; lia|].
    cbn [re_sub_fence_from].
    rewrite (no_fence_no_match (c :: x0) post Hocc). simpl.
    destruct (IH n post) as (k & Heq & Hk).
    + exact (occurs_cons _ _ _ Hocc).
    + simpl in Hn; lia.
    + exists k. now rewrite Heq.
Qed.

Lemma re_sub_fence_keeps (m : text) :
  occurs FENCE (braced m) = false ->
  keeps (braced m) (re_sub_fence fence).
Proof.
  intros Hocc pre post. unfold re_sub_fence, braced in *.
  destruct (re_sub_before (length (pre ++ (LBRACE :: m ++ [RBRACE]) ++ post))
              pre ((m ++ [RBRACE]) ++ post)) as (pre' & k & Heq & Hk & Hsub);
    [reflexivity|].
  change (pre ++ LBRACE :: (m ++ [RBRACE]) ++ post)
    with (pre ++ (LBRACE :: m ++ [RBRACE]) ++ post) in Heq.
  rewrite Heq.
  destruct (re_sub_across (LBRACE :: m) k post Hocc) as (k' & Heq' & Hk').
  { simpl in *. rewrite <- app_assoc in Hk. exact Hk. }
  exists pre', (re_sub_fence_from k' fence post).
  split; [|split; [exact Hsub|apply re_sub_fence_from_Subseq]].
  f_equal.
  replace (LBRACE :: (m ++ [RBRACE]) ++ post)
    with ((LBRACE :: m) ++ RBRACE :: post)
    by (simpl; now rewrite <- app_assoc).
  rewrite Heq'. simpl. now rewrite <- app_assoc.
Qed.

End FenceRemoval.

(** Stage 1 leaves a braced text without fence in place. *)
Lemma strip_fences_keeps (m : text) :
  occurs FENCE (braced m) = false -> keeps (braced m) strip_fences.
Proof.
  intros Hocc. unfold strip_fences.
  apply (keeps_compose _ (fun t => re_sub_fence FENCE (re_sub_fence FENCE_JSON (strip t))) strip);
    [|apply strip_keeps].
  apply (keeps_compose _ (fun t => re_sub_fence FENCE_JSON (strip t)) (re_sub_fence FENCE)).
  - apply (keeps_compose _ strip (re_sub_fence FENCE_JSON)); [apply strip_keeps|].
    apply (re_sub_fence_keeps _ (of_string "json") eq_refl); [|exact Hocc].
    simpl. intros [H|[H|[H|[H|[]]]]]; discriminate H.
  - apply (re_sub_fence_keeps _ [] eq_refl); [intros []|exact Hocc].
Qed.

(** *** No fence survives stage 1 *)

Lemma strip_prefix_FENCE (s : text) :
  strip_prefix FENCE s = None <->
  ~ exists r, s = BACKTICK :: BACKTICK :: BACKTICK :: r.
Proof.
  split.
  - intros H [r ->]. discriminate H.
  - intros H. destruct (strip_prefix FENCE s) as [r|] eqn:E; [|trivial].
    apply strip_prefix_Some in E. exfalso; apply H. now exists r.
Qed.

(** Where the scan of [re.sub] finds no fence, the output has none either. *)
Lemma re_sub_head_clean (n : nat) (s : text) :
  (length s <= n)%nat ->
  strip_prefix FENCE s = None ->
  strip_prefix FENCE (re_sub_fence_from n FENCE s) = None.
Proof.
  intros Hn Hs.
  destruct s as [|c s]; [destruct n; exact Hs|].
  destruct n as [|n]; [simpl in Hn; lia|].
  cbn [re_sub_fence_from]. rewrite Hs.
  destruct (N.eq_dec BACKTICK c) as [<-|nc];
    [|now apply strip_prefix_mismatch].
  destruct s as [|d s]; [destruct n; reflexivity|].
  destruct n as [|n]; [simpl in Hn; lia|].
  destruct (N.eq_dec BACKTICK d) as [<-|nd].
  - assert (Hs' : strip_prefix FENCE (BACKTICK :: s) = None).
    { destruct s as [|e s]; [reflexivity|].
      apply strip_prefix_FENCE. intros [r Hr]. injection Hr as He Hr.
      apply strip_prefix_FENCE in Hs. apply Hs. exists s. now rewrite He. }
    cbn [re_sub_fence_from]. rewrite Hs'.
    destruct s as [|e s]; [destruct n; reflexivity|].
    destruct n as [|n]; [simpl in Hn; lia|].
    assert (He : BACKTICK <> e).
    { intros <-. now apply strip_prefix_FENCE in Hs; apply Hs; exists s. }
    cbn [re_sub_fence_from].
    rewrite (strip_prefix_mismatch _ _ _ _ He : strip_prefix FENCE (e :: s) = None).
    unfold FENCE. cbn [strip_prefix]. rewrite !N.eqb_refl.
    destruct (N.eqb_spec BACKTICK e); [contradiction|reflexivity].
  - cbn [re_sub_fence_from].
    rewrite (strip_prefix_mismatch _ _ _ _ nd : strip_prefix FENCE (d :: s) = None).
    unfold FENCE. cbn [strip_prefix]. rewrite !N.eqb_refl.
    destruct (N.eqb_spec BACKTICK d); [contradiction|reflexivity].
Qed.

Lemma re_sub_fence_clean (n : nat) :
  forall s, (length s <= n)%nat ->
            occurs FENCE (re_sub_fence_from n FENCE s) = false.
Proof.
  induction n as [|n IH]; intros s Hn.
  - destruct s; [reflexivity|simpl in Hn; lia].
  - pose proof (re_sub_head_clean (S n) s Hn) as Hhead.
    cbn [re_sub_fence_from] in *.
    destruct (strip_prefix FENCE s) as [rest|] eqn:E.
    + apply IH. apply strip_prefix_Some in E. subst s.
      pose proof (Subseq_length _ _ (lstrip_Subseq rest)).
      rewrite length_app in Hn. simpl in Hn. lia.
    + destruct s as [|c s]; [reflexivity|].
      specialize (Hhead eq_refl).
      change (occurs FENCE (c :: re_sub_fence_from n FENCE s))
        with (match strip_prefix FENCE (c :: re_sub_fence_from n FENCE s) with
              | Some _ => true
              | None => occurs FENCE (re_sub_fence_from n FENCE s)
              end).
      rewrite Hhead. apply IH. simpl in Hn; lia.
Qed.

Lemma strip_fences_clean (t : text) : occurs FENCE (strip_fences t) = false.
Proof.
  unfold strip_fences, strip.
  set (u := re_sub_fence FENCE _).
  assert (Hu : occurs FENCE u = false)
    by (apply re_sub_fence_clean; reflexivity).
  destruct (lstrip_suffix u) as [w Hw].
  rewrite Hw in Hu. apply occurs_app_r in Hu.
  destruct (rstrip_prefix (lstrip u)) as [w' Hw'].
  rewrite Hw' in Hu. now apply occurs_app_l in Hu.
Qed.

(** ** Stages 2 and 3 on a text around a braced part *)

Lemma forallb_incl (p : N -> bool) (u t : text) :
  incl u t -> forallb p t = true -> forallb p u = true.
Proof.
  intros Hi Ht. rewrite forallb_forall in *. auto.
Qed.

Lemma first_index_none (s : text) :
  no_open s = true -> first_index is_open s = None.
Proof.
  induction s as [|c s IH]; [reflexivity|]. simpl.
  destruct (is_open c); [discriminate|]. simpl. intros H. now rewrite IH.
Qed.

Lemma first_index_after (pre : text) (c : N) (r : text) :
  no_open pre = true -> is_open c = true ->
  first_index is_open (pre ++ c :: r) = Some (length pre).
Proof.
  intros Hp Hc. induction pre as [|a pre IH]; simpl.
  - now rewrite Hc.
  - simpl in Hp. destruct (is_open a); [discriminate|].
    simpl in Hp. now rewrite IH.
Qed.

Lemma start_after (pre : text) (c : N) (r : text) :
  no_open pre = true -> is_open c = true ->
  skipn (start_index (pre ++ c :: r)) (pre ++ c :: r) = c :: r.
Proof.
  intros Hp Hc. unfold start_index. rewrite first_index_after by assumption.
  rewrite skipn_app, Nat.sub_diag, skipn_all. reflexivity.
Qed.

Lemma start_none (s : text) :
  no_open s = true -> skipn (start_index s) s = s.
Proof.
  intros H. unfold start_index. now rewrite first_index_none.
Qed.

Lemma upto_last_rbrace_none (s : text) :
  no_rbrace s = true -> upto_last_rbrace s = None.
Proof.
  induction s as [|c s IH]; [reflexivity|]. simpl.
  destruct (c =? RBRACE); [discriminate|]. simpl. intros H. now rewrite IH.
Qed.

Lemma upto_last_rbrace_app (m post : text) :
  no_rbrace post = true ->
  upto_last_rbrace (m ++ RBRACE :: post) = Some (m ++ [RBRACE]).
Proof.
  intros Hp. induction m as [|c m IH]; simpl.
  - now rewrite upto_last_rbrace_none.
  - now rewrite IH.
Qed.

Lemma re_search_braces_none (s : text) :
  no_lbrace s = true -> re_search_braces s = None.
Proof.
  induction s as [|c s IH]; [reflexivity|]. simpl.
  destruct (c =? LBRACE); [discriminate|]. exact IH.
Qed.

Lemma re_search_braces_span (pre m post : text) :
  no_lbrace pre = true -> no_rbrace post = true ->
  re_search_braces (pre ++ braced m ++ post) = Some (braced m).
Proof.
  intros Hpre Hpost. induction pre as [|c pre IH]; simpl.
  - unfold braced. rewrite <- app_assoc. simpl.
    now rewrite upto_last_rbrace_app.
  - simpl in Hpre. destruct (c =? LBRACE); [discriminate|]. now apply IH.
Qed.

Lemma no_open_no_lbrace (s : text) : no_open s = true -> no_lbrace s = true.
Proof.
  unfold no_open, no_lbrace. rewrite !forallb_forall. intros H c Hc.
  specialize (H c Hc). unfold is_open in H.
  destruct (c =? LBRACE); [discriminate|reflexivity].
Qed.

(** ** The decoder on an extended text *)

Lemma skip_ws_stop (c : N) (r : text) :
  is_json_ws c = false -> skip_ws (c :: r) = c :: r.
Proof. intros H; simpl; now rewrite H. Qed.

Lemma skip_ws_head (s : text) (d : N) (r : text) :
  skip_ws s = d :: r -> is_json_ws d = false.
Proof.
  induction s as [|c s IH]; [discriminate|]. simpl.
  destruct (is_json_ws c) eqn:E; [exact IH|].
  intros H; injection H as -> _. exact E.
Qed.

Lemma skip_ws_app (s : text) (d : N) (r post : text) :
  skip_ws s = d :: r -> skip_ws (s ++ post) = d :: r ++ post.
Proof.
  induction s as [|c s IH]; [discriminate|]. simpl.
  destruct (is_json_ws c); [exact IH|].
  intros H; injection H as -> ->. reflexivity.
Qed.

Lemma skip_ws_length (s : text) : (length (skip_ws s) <= length s)%nat.
Proof.
  induction s as [|c s IH]; simpl; [lia|].
  destruct (is_json_ws c); simpl; lia.
Qed.

Ltac push_case IH H post :=
  match type of H with
  | push ?c (scanstring ?x) = Some (?str, ?r) =>
      let E := fresh "E" in
      let str0 := fresh "str" in
      let r0 := fresh "r" in
      let IHx := fresh "IHx" in
      destruct (scanstring x) as [[str0 r0]|] eqn:E; [|discriminate H];
      simpl in H; injection H as <- <-;
      pose proof (IH x str0 r0 post ltac:(simpl in *; lia) E) as IHx;
      cbn [app] in IHx; rewrite IHx; reflexivity
  end.

Lemma scanstring_ext (n : nat) :
  forall s str r post,
    (length s <= n)%nat ->
    scanstring s = Some (str, r) ->
    scanstring (s ++ post) = Some (str, r ++ post).
Proof.
  induction n as [|n IH]; intros s str r post Hn H;
    (destruct s as [|c s]; [discriminate H|]); [simpl in Hn; lia|].
  cbn [app]. cbn [scanstring] in *.
  destruct (c =? DQUOTE); [now injection H as <- <-|].
  destruct (c =? BACKSLASH).
  - destruct s as [|e s]; [discriminate H|]. cbn [app].
    destruct (e =? ch "u").
    + destruct s as [|h1 [|h2 [|h3 [|h4 s]]]]; try discriminate H. cbn [app].
      destruct (hex4 h1 h2 h3 h4) as [uni|]; [|discriminate H].
      destruct (is_high_surrogate uni); [|push_case IH H post].
      destruct s as [|b [|u s]].
      * discriminate H.
      * cbn [app].
        destruct (b =? BACKSLASH) eqn:Eb.
        -- exfalso. cbn [scanstring] in H. rewrite Eb in H.
           destruct (b =? DQUOTE) eqn:Eq.
           ++ apply N.eqb_eq in Eb, Eq. rewrite Eb in Eq. discriminate Eq.
           ++ discriminate H.
        -- destruct post as [|p post]; cbn [andb];
             [rewrite app_nil_r; exact H|push_case IH H (p :: post)].
      * cbn [app]. destruct ((b =? BACKSLASH) && (u =? ch "u"));
          [|push_case IH H post].
        destruct s as [|g1 [|g2 [|g3 [|g4 s]]]]; try discriminate H. cbn [app].
        destruct (hex4 g1 g2 g3 g4) as [uni2|]; [|discriminate H].
        destruct (is_low_surrogate uni2); push_case IH H post.
    + destruct (unescape e); [push_case IH H post|discriminate H].
  - destruct (c <? 32); [discriminate H|push_case IH H post].
Qed.

Lemma is_delim_cases (c : N) :
  is_delim c = true ->
  c = 0x20 \/ c = 0x09 \/ c = 0x0A \/ c = 0x0D
  \/ c = COMMA \/ c = RBRACE \/ c = RBRACKET.
Proof.
  unfold is_delim, is_json_ws. rewrite !orb_true_iff, !N.eqb_eq. tauto.
Qed.

Lemma is_delim_plain (c : N) :
  is_delim c = true ->
  is_digit c = false /\ (c =? ch ".") = false
  /\ (c =? ch "e") = false /\ (c =? ch "E") = false.
Proof.
  intros H. apply is_delim_cases in H.
  repeat destruct H as [H|H]; subst c; repeat split; reflexivity.
Qed.

Lemma span_digits_ext (s : text) :
  forall ds c r post,
    span_digits s = (ds, c :: r) ->
    span_digits (s ++ post) = (ds, c :: r ++ post).
Proof.
  induction s as [|a s IH]; intros ds c r post H; [discriminate H|].
  cbn [app span_digits] in *. destruct (is_digit a).
  - destruct (span_digits s) as [d r'] eqn:E. injection H as <- ->.
    now rewrite (IH _ _ _ post eq_refl).
  - now injection H as <- <- <-.
Qed.

Lemma match_integer_ext (s : text) (i : text) (c : N) (r post : text) :
  match_integer s = Some (i, c :: r) ->
  match_integer (s ++ post) = Some (i, c :: r ++ post).
Proof.
  assert (Hbody : forall sign s1,
    match s1 with
    | [] => None
    | c0 :: r0 =>
        if c0 =? ch "0" then Some (sign ++ [c0], r0)
        else if is_digit c0
             then let (d, r') := span_digits r0 in Some (sign ++ c0 :: d, r')
             else None
    end = Some (i, c :: r) ->
    match s1 ++ post with
    | [] => None
    | c0 :: r0 =>
        if c0 =? ch "0" then Some (sign ++ [c0], r0)
        else if is_digit c0
             then let (d, r') := span_digits r0 in Some (sign ++ c0 :: d, r')
             else None
    end = Some (i, c :: r ++ post)).
  { intros sign s1 H. destruct s1 as [|c0 r0]; [discriminate H|]. cbn [app].
    destruct (c0 =? ch "0"); [now injection H as <- ->|].
    destruct (is_digit c0); [|discriminate H].
    destruct (span_digits r0) as [d r'] eqn:E. injection H as <- ->.
    now rewrite (span_digits_ext _ _ _ _ post E). }
  unfold match_integer. destruct s as [|a s]; [discriminate|]. cbn [app].
  destruct (a =? ch "-"); intros H.
  - exact (Hbody [a] s H).
  - exact (Hbody [] (a :: s) H).
Qed.

Lemma match_frac_ext (s f : text) (c : N) (r post : text) :
  match_frac s = Some (f, c :: r) ->
  match_frac (s ++ post) = Some (f, c :: r ++ post).
Proof.
  unfold match_frac. destruct s as [|a s]; [discriminate|]. cbn [app].
  destruct (a =? ch "."); [|discriminate].
  destruct (span_digits s) as [d r'] eqn:E.
  destruct d as [|d0 d]; [discriminate|]. intros H; injection H as <- ->.
  now rewrite (span_digits_ext _ _ _ _ post E).
Qed.

Lemma match_frac_none_ext (c : N) (r post : text) :
  (c =? ch ".") = false -> match_frac ((c :: r) ++ post) = None.
Proof. intros H. cbn [app match_frac]. now rewrite H. Qed.

Lemma match_exp_ext (s e : text) (c : N) (r post : text) :
  match_exp s = Some (e, c :: r) ->
  match_exp (s ++ post) = Some (e, c :: r ++ post).
Proof.
  unfold match_exp. destruct s as [|a s]; [discriminate|]. cbn [app].
  destruct ((a =? ch "e") || (a =? ch "E")); [|discriminate].
  destruct s as [|b s]; [discriminate|]. cbn [app].
  destruct ((b =? ch "-") || (b =? ch "+")).
  - destruct (span_digits s) as [d r'] eqn:E.
    destruct d as [|d0 d]; [discriminate|]. intros H; injection H as <- ->.
    now rewrite (span_digits_ext _ _ _ _ post E).
  - destruct (span_digits (b :: s)) as [d r'] eqn:E.
    destruct d as [|d0 d]; [discriminate|]. intros H; injection H as <- ->.
    change (b :: s ++ post) with ((b :: s) ++ post).
    now rewrite (span_digits_ext _ _ _ _ post E).
Qed.

Lemma match_exp_none_ext (c : N) (r post : text) :
  (c =? ch "e") = false -> (c =? ch "E") = false ->
  match_exp ((c :: r) ++ post) = None.
Proof. intros H1 H2. cbn [app match_exp]. now rewrite H1, H2. Qed.

Lemma match_frac_head (s f r : text) :
  match_frac s = Some (f, r) -> exists s', s = ch "." :: s'.
Proof.
  unfold match_frac. destruct s as [|a s]; [discriminate|].
  destruct (N.eqb_spec a (ch ".")) as [->|]; [|discriminate]. now exists s.
Qed.

Lemma match_exp_head (s e r : text) :
  match_exp s = Some (e, r) ->
  exists a s', s = a :: s' /\ (a =? ch ".") = false.
Proof.
  unfold match_exp. destruct s as [|a s]; [discriminate|].
  destruct (N.eqb_spec a (ch "e")) as [->|];
    [exists (ch "e"), s; now split|].
  destruct (N.eqb_spec a (ch "E")) as [->|];
    [exists (ch "E"), s; now split|discriminate].
Qed.

Lemma scan_number_ext (s : text) (v : value) (r post : text) :
  scan_number s = Some (v, r) -> delim_next r = true ->
  scan_number (s ++ post) = Some (v, r ++ post).
Proof.
  unfold scan_number.
  destruct (match_integer s) as [[i r1]|] eqn:Ei; [|discriminate].
  destruct (match_frac r1) as [[f r2]|] eqn:Ef.
  - destruct (match_frac_head _ _ _ Ef) as [r1' ->].
    rewrite (match_integer_ext _ _ _ _ post Ei).
    change (ch "." :: r1' ++ post) with ((ch "." :: r1') ++ post).
    destruct (match_exp r2) as [[e r3]|] eqn:Ee.
    + destruct (match_exp_head _ _ _ Ee) as (a & r2' & -> & _).
      rewrite (match_frac_ext _ _ _ _ post Ef).
      intros H Hd.
      assert (Hr : exists d r', r3 = d :: r').
      { destruct (f ++ e); injection H as _ <-;
          (destruct r3 as [|d r']; [discriminate Hd|now exists d, r']). }
      destruct Hr as (d & r' & ->).
      change (a :: r2' ++ post) with ((a :: r2') ++ post).
      rewrite (match_exp_ext _ _ _ _ post Ee).
      destruct (f ++ e); now injection H as <- <-.
    + intros H Hd.
      assert (Hr : exists d r', r2 = d :: r' /\ is_delim d = true).
      { destruct (f ++ []); injection H as _ <-;
          (destruct r2 as [|d r']; [discriminate Hd|now exists d, r']). }
      destruct Hr as (d & r' & -> & Hdel).
      destruct (is_delim_plain _ Hdel) as (_ & _ & He1 & He2).
      rewrite (match_frac_ext _ _ _ _ post Ef).
      change (d :: r' ++ post) with ((d :: r') ++ post).
      rewrite (match_exp_none_ext _ _ _ He1 He2).
      destruct (f ++ []); now injection H as <- <-.
  - destruct (match_exp r1) as [[e r3]|] eqn:Ee.
    + destruct (match_exp_head _ _ _ Ee) as (a & r1' & -> & Ha).
      rewrite (match_integer_ext _ _ _ _ post Ei).
      change (a :: r1' ++ post) with ((a :: r1') ++ post).
      rewrite (match_frac_none_ext _ _ _ Ha).
      intros H Hd.
      assert (Hr : exists d r', r3 = d :: r').
      { destruct ([] ++ e); injection H as _ <-;
          (destruct r3 as [|d r']; [discriminate Hd|now exists d, r']). }
      destruct Hr as (d & r' & ->).
      rewrite (match_exp_ext _ _ _ _ post Ee).
      destruct ([] ++ e); now injection H as <- <-.
    + intros H Hd. cbn [app] in H. injection H as <- <-.
      destruct r1 as [|d r']; [discriminate Hd|]. cbn [delim_next] in Hd.
      destruct (is_delim_plain _ Hd) as (_ & Hdot & He1 & He2).
      rewrite (match_integer_ext _ _ _ _ post Ei).
      change (d :: r' ++ post) with ((d :: r') ++ post).
      rewrite (match_frac_none_ext _ _ _ Hdot).
      rewrite (match_exp_none_ext _ _ _ He1 He2). reflexivity.
Qed.

Lemma scan_number_head (s : text) (v : value) (r : text) :
  scan_number s = Some (v, r) ->
  exists a s', s = a :: s' /\ (a =? ch "-") || is_digit a = true.
Proof.
  unfold scan_number, match_integer.
  destruct s as [|a s]; [discriminate|]. intros H. exists a, s. split; [easy|].
  destruct (a =? ch "-"); [reflexivity|].
  destruct (a =? ch "0") eqn:E0.
  - apply N.eqb_eq in E0. now subst a.
  - destruct (is_digit a); [reflexivity|discriminate H].
Qed.

Lemma scan_number_kind (s : text) (v : value) (r : text) :
  scan_number s = Some (v, r) -> needs_delim v = true.
Proof.
  unfold scan_number. destruct (match_integer s) as [[i r1]|]; [|discriminate].
  destruct (match_frac r1) as [[f r2]|]; destruct (match_exp _) as [[e r3]|];
    destruct (_ ++ _); intros H; injection H as <- _; reflexivity.
Qed.

Lemma number_start_not (x a : N) (p s : text) :
  (x =? ch "-") || is_digit x = false ->
  (a =? ch "-") || is_digit a = true ->
  strip_prefix (x :: p) (a :: s) = None.
Proof.
  intros Hx Ha. apply strip_prefix_mismatch. intros ->. congruence.
Qed.

Lemma scan_atom_ext (s : text) (v : value) (r post : text) :
  scan_atom s = Some (v, r) -> stable v r = true ->
  scan_atom (s ++ post) = Some (v, r ++ post).
Proof.
  intros H Hst. unfold scan_atom in H.
  destruct (strip_prefix (of_string "null") s) as [r1|] eqn:E1.
  { injection H as <- <-. apply strip_prefix_Some in E1. subst s. reflexivity. }
  destruct (strip_prefix (of_string "true") s) as [r2|] eqn:E2.
  { injection H as <- <-. apply strip_prefix_Some in E2. subst s. reflexivity. }
  destruct (strip_prefix (of_string "false") s) as [r3|] eqn:E3.
  { injection H as <- <-. apply strip_prefix_Some in E3. subst s. reflexivity. }
  destruct (scan_number s) as [[v4 r4]|] eqn:E4.
  { injection H as <- <-.
    unfold stable in Hst. rewrite (scan_number_kind _ _ _ E4) in Hst.
    simpl in Hst.
    destruct (scan_number_head _ _ _ E4) as (a & s' & -> & Ha).
    unfold scan_atom. cbn [app].
    rewrite (number_start_not (ch "n") a _ _ eq_refl Ha
             : strip_prefix (of_string "null") (a :: s' ++ post) = None).
    rewrite (number_start_not (ch "t") a _ _ eq_refl Ha
             : strip_prefix (of_string "true") (a :: s' ++ post) = None).
    rewrite (number_start_not (ch "f") a _ _ eq_refl Ha
             : strip_prefix (of_string "false") (a :: s' ++ post) = None).
    change (a :: s' ++ post) with ((a :: s') ++ post).
    now rewrite (scan_number_ext _ _ _ post E4 Hst). }
  destruct (strip_prefix (of_string "NaN") s) as [r5|] eqn:E5.
  { injection H as <- <-. apply strip_prefix_Some in E5. subst s. reflexivity. }
  destruct (strip_prefix (of_string "Infinity") s) as [r6|] eqn:E6.
  { injection H as <- <-. apply strip_prefix_Some in E6. subst s. reflexivity. }
  destruct (strip_prefix (of_string "-Infinity") s) as [r7|] eqn:E7.
  { injection H as <- <-. apply strip_prefix_Some in E7. subst s. reflexivity. }
  discriminate H.
Qed.

Lemma skip_ws_delim (r : text) (d : N) (r' : text) :
  skip_ws r = d :: r' -> is_delim d = true -> delim_next r = true.
Proof.
  destruct r as [|c r]; [discriminate|]. simpl.
  destruct (is_json_ws c) eqn:Ec.
  - intros _ _. unfold is_delim. now rewrite Ec.
  - intros H; injection H as -> _. trivial.
Qed.

Lemma skip_ws_app_some (s post : text) :
  skip_ws s <> [] -> skip_ws (s ++ post) = skip_ws s ++ post.
Proof.
  destruct (skip_ws s) as [|d r] eqn:E; [congruence|]. intros _.
  now apply skip_ws_app.
Qed.

Section ContainersExt.

Variables scan1 scan2 : text -> scan value.
Variable post : text.

Hypothesis scan1_nil : forall v r, scan1 [] <> Scanned v r.
Hypothesis scan_ext :
  forall s v r,
    scan1 s = Scanned v r -> stable v r = true ->
    scan2 (s ++ post) = Scanned v (r ++ post).

Lemma array_items_nil (k : nat) (vs : list value) (r : text) :
  array_items scan1 k [] <> Scanned vs r.
Proof.
  destruct k as [|k]; [discriminate|]. simpl.
  pose proof scan1_nil as Hnil.
  destruct (scan1 []) as [v r'| |]; try discriminate.
  exfalso. exact (Hnil v r' eq_refl).
Qed.

Lemma array_items_ext (k : nat) :
  forall k' s vs r,
    (k <= k')%nat ->
    array_items scan1 k s = Scanned vs r ->
    array_items scan2 k' (s ++ post) = Scanned vs (r ++ post).
Proof.
  induction k as [|k IH]; intros k' s vs r Hk H; [discriminate H|].
  destruct k' as [|k']; [lia|]. cbn [array_items] in *.
  destruct (scan1 s) as [v r2| |] eqn:E; try discriminate H.
  destruct (skip_ws r2) as [|d r3] eqn:Ew; [discriminate H|].
  assert (Hd : is_delim d = true -> stable v r2 = true).
  { intros Hd. unfold stable. rewrite (skip_ws_delim _ _ _ Ew Hd).
    apply orb_true_r. }
  destruct (N.eqb_spec d RBRACKET) as [->|nb].
  - rewrite (scan_ext _ _ _ E (Hd eq_refl)), (skip_ws_app _ _ _ post Ew).
    rewrite N.eqb_refl. now injection H as <- <-.
  - destruct (N.eqb_spec d COMMA) as [->|nc]; [|discriminate H].
    rewrite (scan_ext _ _ _ E (Hd eq_refl)), (skip_ws_app _ _ _ post Ew).
    change (COMMA =? RBRACKET) with false. rewrite N.eqb_refl.
    destruct (array_items scan1 k (skip_ws r3)) as [vs' r'| |] eqn:Ei;
      try discriminate H.
    simpl in H. injection H as <- <-.
    rewrite skip_ws_app_some
      by (intros Hnil; rewrite Hnil in Ei; now apply array_items_nil in Ei).
    rewrite (IH k' _ _ _ ltac:(lia) Ei). reflexivity.
Qed.

Lemma JSONArray_ext (k k' : nat) (s : text) (v : value) (r : text) :
  (k <= k')%nat ->
  JSONArray scan1 k s = Scanned v r ->
  JSONArray scan2 k' (s ++ post) = Scanned v (r ++ post).
Proof.
  intros Hk. unfold JSONArray.
  destruct (skip_ws s) as [|c r0] eqn:Ew; [discriminate|].
  rewrite (skip_ws_app _ _ _ post Ew).
  destruct (c =? RBRACKET); [now intros H; injection H as <- <-|].
  destruct (array_items scan1 k (c :: r0)) as [vs r'| |] eqn:Ei;
    try discriminate.
  simpl. intros H; injection H as <- <-.
  change (c :: r0 ++ post) with ((c :: r0) ++ post).
  now rewrite (array_items_ext _ _ _ _ _ Hk Ei).
Qed.

Lemma object_pairs_ext (k : nat) :
  forall k' s ps r,
    (k <= k')%nat ->
    object_pairs scan1 k s = Scanned ps r ->
    object_pairs scan2 k' (s ++ post) = Scanned ps (r ++ post).
Proof.
  induction k as [|k IH]; intros k' s ps r Hk H; [discriminate H|].
  destruct k' as [|k']; [lia|]. cbn [object_pairs] in *.
  destruct (scanstring s) as [[key r0]|] eqn:Es; [|discriminate H].
  rewrite (scanstring_ext _ _ _ _ post (le_n _) Es).
  destruct (skip_ws r0) as [|c r1] eqn:Ew0; [discriminate H|].
  rewrite (skip_ws_app _ _ _ post Ew0).
  destruct (c =? COLON); [|discriminate H].
  destruct (scan1 (skip_ws r1)) as [v r2| |] eqn:E; try discriminate H.
  rewrite skip_ws_app_some
    by (intros Hnil; rewrite Hnil in E; now apply scan1_nil in E).
  destruct (skip_ws r2) as [|d r3] eqn:Ew; [discriminate H|].
  assert (Hd : is_delim d = true -> stable v r2 = true).
  { intros Hd. unfold stable. rewrite (skip_ws_delim _ _ _ Ew Hd).
    apply orb_true_r. }
  destruct (N.eqb_spec d RBRACE) as [->|nb].
  - rewrite (scan_ext _ _ _ E (Hd eq_refl)), (skip_ws_app _ _ _ post Ew).
    rewrite N.eqb_refl. now injection H as <- <-.
  - destruct (N.eqb_spec d COMMA) as [->|nc]; [|discriminate H].
    rewrite (scan_ext _ _ _ E (Hd eq_refl)), (skip_ws_app _ _ _ post Ew).
    change (COMMA =? RBRACE) with false. rewrite N.eqb_refl.
    destruct (skip_ws r3) as [|q r4] eqn:Ew3; [discriminate H|].
    rewrite (skip_ws_app _ _ _ post Ew3).
    destruct (q =? DQUOTE); [|discriminate H].
    destruct (object_pairs scan1 k r4) as [ps' r'| |] eqn:Ei;
      try discriminate H.
    simpl in H. injection H as <- <-.
    rewrite (IH k' _ _ _ ltac:(lia) Ei). reflexivity.
Qed.

Lemma JSONObject_ext (k k' : nat) (s : text) (v : value) (r : text) :
  (k <= k')%nat ->
  JSONObject scan1 k s = Scanned v r ->
  JSONObject scan2 k' (s ++ post) = Scanned v (r ++ post).
Proof.
  intros Hk. unfold JSONObject.
  destruct (skip_ws s) as [|c r0] eqn:Ew; [discriminate|].
  rewrite (skip_ws_app _ _ _ post Ew).
  destruct (c =? RBRACE); [now intros H; injection H as <- <-|].
  destruct (c =? DQUOTE); [|discriminate].
  destruct (object_pairs scan1 k r0) as [ps r'| |] eqn:Ei; try discriminate.
  simpl. intros H; injection H as <- <-.
  now rewrite (object_pairs_ext _ _ _ _ _ Hk Ei).
Qed.

End ContainersExt.

(** A value scanned in [s] is scanned in [s ++ post] as well, with any
    larger budget. *)
Lemma scan_once_ext (n : nat) :
  forall m s v r post,
    (n <= m)%nat ->
    scan_once n s = Scanned v r -> stable v r = true ->
    scan_once m (s ++ post) = Scanned v (r ++ post).
Proof.
  induction n as [|n IH]; intros m s v r post Hm H Hst; [discriminate H|].
  destruct m as [|m]; [lia|].
  destruct s as [|c s]; [discriminate H|]. cbn [app scan_once] in *.
  destruct (c =? DQUOTE).
  { destruct (scanstring s) as [[str r0]|] eqn:Es; [|discriminate H].
    injection H as <- <-.
    now rewrite (scanstring_ext _ _ _ _ post (le_n _) Es). }
  assert (Hnil : forall v r, scan_once n [] <> Scanned v r)
    by (destruct n; discriminate).
  assert (Hext : forall s v r,
             scan_once n s = Scanned v r -> stable v r = true ->
             scan_once m (s ++ post) = Scanned v (r ++ post))
    by (intros; apply IH; [lia|assumption..]).
  destruct (c =? LBRACE).
  { apply (JSONObject_ext _ _ post Hnil Hext n m); [lia|exact H]. }
  destruct (c =? LBRACKET).
  { apply (JSONArray_ext _ _ post Hnil Hext n m); [lia|exact H]. }
  destruct (scan_atom (c :: s)) as [[v0 r0]|] eqn:Ea; [|discriminate H].
  injection H as <- <-.
  change (c :: s ++ post) with ((c :: s) ++ post).
  now rewrite (scan_atom_ext _ _ _ post Ea Hst).
Qed.

(** ** The recursion budget of [json_loads] is never exhausted *)

Ltac push_len IH H :=
  match type of H with
  | push ?c (scanstring ?x) = Some (?str, ?r) =>
      let E := fresh "E" in
      let str0 := fresh "str" in
      let r0 := fresh "r" in
      destruct (scanstring x) as [[str0 r0]|] eqn:E; [|discriminate H];
      simpl in H; injection H as <- <-;
      pose proof (IH x str0 r0 ltac:(simpl in *; lia) E); simpl in *; lia
  end.

Lemma scanstring_length (n : nat) :
  forall s str r,
    (length s <= n)%nat ->
    scanstring s = Some (str, r) -> (length r < length s)%nat.
Proof.
  induction n as [|n IH]; intros s str r Hn H;
    (destruct s as [|c s]; [discriminate H|]); [simpl in Hn; lia|].
  cbn [scanstring] in H.
  destruct (c =? DQUOTE); [injection H as <- <-; simpl; lia|].
  destruct (c =? BACKSLASH).
  - destruct s as [|e s]; [discriminate H|].
    destruct (e =? ch "u").
    + destruct s as [|h1 [|h2 [|h3 [|h4 s]]]]; try discriminate H.
      destruct (hex4 h1 h2 h3 h4) as [uni|]; [|discriminate H].
      destruct (is_high_surrogate uni); [|push_len IH H].
      destruct s as [|b [|u s]]; [discriminate H|push_len IH H|].
      destruct ((b =? BACKSLASH) && (u =? ch "u")); [|push_len IH H].
      destruct s as [|g1 [|g2 [|g3 [|g4 s]]]]; try discriminate H.
      destruct (hex4 g1 g2 g3 g4) as [uni2|]; [|discriminate H].
      destruct (is_low_surrogate uni2); push_len IH H.
    + destruct (unescape e); [push_len IH H|discriminate H].
  - destruct (c <? 32); [discriminate H|push_len IH H].
Qed.

Lemma span_digits_length (s : text) :
  forall d r, span_digits s = (d, r) -> (length r <= length s)%nat.
Proof.
  induction s as [|a s IH]; intros d r H; cbn [span_digits] in H.
  - injection H as <- <-. simpl; lia.
  - destruct (is_digit a).
    + destruct (span_digits s) as [d' r'] eqn:E. injection H as <- <-.
      specialize (IH _ _ eq_refl). simpl; lia.
    + injection H as <- <-. lia.
Qed.

Lemma match_integer_length (s i r : text) :
  match_integer s = Some (i, r) -> (length r < length s)%nat.
Proof.
  assert (Hbody : forall sign s1,
    match s1 with
    | [] => None
    | c0 :: r0 =>
        if c0 =? ch "0" then Some (sign ++ [c0], r0)
        else if is_digit c0
             then let (d, r') := span_digits r0 in Some (sign ++ c0 :: d, r')
             else None
    end = Some (i, r) -> (length r < length s1)%nat).
  { intros sign s1 H. destruct s1 as [|c0 r0]; [discriminate H|].
    destruct (c0 =? ch "0"); [injection H as <- <-; simpl; lia|].
    destruct (is_digit c0); [|discriminate H].
    destruct (span_digits r0) as [d r'] eqn:E. injection H as <- <-.
    apply span_digits_length in E. simpl; lia. }
  unfold match_integer. destruct s as [|a s]; [discriminate|].
  destruct (a =? ch "-"); intros H.
  - pose proof (Hbody [a] s H). simpl; lia.
  - exact (Hbody [] (a :: s) H).
Qed.

Lemma match_frac_length (s f r : text) :
  match_frac s = Some (f, r) -> (length r <= length s)%nat.
Proof.
  unfold match_frac. destruct s as [|a s]; [discriminate|].
  destruct (a =? ch "."); [|discriminate].
  destruct (span_digits s) as [d r'] eqn:E.
  destruct d; [discriminate|]. intros H; injection H as <- <-.
  apply span_digits_length in E. simpl; lia.
Qed.

Lemma match_exp_length (s e r : text) :
  match_exp s = Some (e, r) -> (length r <= length s)%nat.
Proof.
  unfold match_exp. destruct s as [|a s]; [discriminate|].
  destruct ((a =? ch "e") || (a =? ch "E")); [|discriminate].
  destruct s as [|b s].
  - simpl. discriminate.
  - destruct ((b =? ch "-") || (b =? ch "+")).
    + destruct (span_digits s) as [d r'] eqn:E.
      destruct d; [discriminate|]. intros H; injection H as <- <-.
      apply span_digits_length in E. simpl; lia.
    + destruct (span_digits (b :: s)) as [d r'] eqn:E.
      destruct d; [discriminate|]. intros H; injection H as <- <-.
      apply span_digits_length in E. simpl in *; lia.
Qed.

Lemma scan_number_length (s : text) (v : value) (r : text) :
  scan_number s = Some (v, r) -> (length r < length s)%nat.
Proof.
  unfold scan_number.
  destruct (match_integer s) as [[i r1]|] eqn:Ei; [|discriminate].
  apply match_integer_length in Ei.
  destruct (match_frac r1) as [[f r2]|] eqn:Ef;
    [apply match_frac_length in Ef|];
    (destruct (match_exp _) as [[e r3]|] eqn:Ee;
     [apply match_exp_length in Ee|]);
    destruct (_ ++ _); intros H; injection H as _ <-; lia.
Qed.

Lemma strip_prefix_length (p s r : text) :
  strip_prefix p s = Some r -> length s = (length p + length r)%nat.
Proof.
  intros H. apply strip_prefix_Some in H. subst s. apply length_app.
Qed.

Lemma scan_atom_length (s : text) (v : value) (r : text) :
  scan_atom s = Some (v, r) -> (length r < length s)%nat.
Proof.
  unfold scan_atom.
  repeat match goal with
         | |- context [strip_prefix ?p s] =>
             let E := fresh "E" in
             destruct (strip_prefix p s) eqn:E;
             [apply strip_prefix_length in E; simpl in E;
              intros H; injection H as _ <-; lia|]
         | |- context [scan_number s] =>
             let E := fresh "E" in
             destruct (scan_number s) as [[? ?]|] eqn:E;
             [apply scan_number_length in E;
              intros H; injection H as _ <-; lia|]
         end.
  discriminate.
Qed.

Section ContainersTotal.

Variable scan_value : text -> scan value.
Variable n : nat.
Hypothesis scan_total : total_below n scan_value.

Lemma array_items_total (k : nat) :
  forall s, (length s < k)%nat -> (length s < n)%nat ->
    array_items scan_value k s <> Exhausted
    /\ forall vs r, array_items scan_value k s = Scanned vs r ->
                    (length r < length s)%nat.
Proof.
  induction k as [|k IH]; intros s Hk Hn; [lia|]. cbn [array_items].
  destruct (scan_total s Hn) as [Hne Hlen].
  destruct (scan_value s) as [v r2| |]; [|split; discriminate|congruence].
  specialize (Hlen _ _ eq_refl).
  pose proof (skip_ws_length r2) as Hw.
  destruct (skip_ws r2) as [|d r3]; [split; discriminate|]. simpl in Hw.
  destruct (d =? RBRACKET).
  { split; [discriminate|]. intros vs r H; injection H as _ <-. lia. }
  destruct (d =? COMMA); [|split; discriminate].
  pose proof (skip_ws_length r3) as Hw3.
  destruct (IH (skip_ws r3)) as [Hne' Hlen']; [lia|lia|].
  destruct (array_items scan_value k (skip_ws r3)) as [vs' r'| |];
    [|split; discriminate|congruence].
  specialize (Hlen' _ _ eq_refl).
  split; [discriminate|]. simpl. intros vs r H; injection H as _ <-. lia.
Qed.

Lemma JSONArray_total (k : nat) (s : text) :
  (length s < k)%nat -> (length s < n)%nat ->
  JSONArray scan_value k s <> Exhausted
  /\ forall v r, JSONArray scan_value k s = Scanned v r ->
                 (length r <= length s)%nat.
Proof.
  intros Hk Hn. unfold JSONArray.
  pose proof (skip_ws_length s) as Hw.
  destruct (skip_ws s) as [|c r0]; [split; discriminate|]. simpl in Hw.
  destruct (c =? RBRACKET).
  { split; [discriminate|]. intros v r H; injection H as _ <-. lia. }
  destruct (array_items_total k (c :: r0)) as [Hne Hlen];
    [simpl; lia|simpl; lia|].
  destruct (array_items scan_value k (c :: r0)) as [vs r'| |];
    [|split; discriminate|congruence].
  specialize (Hlen _ _ eq_refl). simpl in Hlen.
  split; [discriminate|]. simpl. intros v r H; injection H as _ <-. lia.
Qed.

Lemma object_pairs_total (k : nat) :
  forall s, (length s < k)%nat -> (length s < n)%nat ->
    object_pairs scan_value k s <> Exhausted
    /\ forall ps r, object_pairs scan_value k s = Scanned ps r ->
                    (length r < length s)%nat.
Proof.
  induction k as [|k IH]; intros s Hk Hn; [lia|]. cbn [object_pairs].
  destruct (scanstring s) as [[key r0]|] eqn:Es; [|split; discriminate].
  apply (scanstring_length _ _ _ _ (le_n _)) in Es.
  pose proof (skip_ws_length r0) as Hw0.
  destruct (skip_ws r0) as [|c r1]; [split; discriminate|]. simpl in Hw0.
  destruct (c =? COLON); [|split; discriminate].
  pose proof (skip_ws_length r1) as Hw1.
  destruct (scan_total (skip_ws r1)) as [Hne Hlen]; [lia|].
  destruct (scan_value (skip_ws r1)) as [v r2| |];
    [|split; discriminate|congruence].
  specialize (Hlen _ _ eq_refl).
  pose proof (skip_ws_length r2) as Hw.
  destruct (skip_ws r2) as [|d r3]; [split; discriminate|]. simpl in Hw.
  destruct (d =? RBRACE).
  { split; [discriminate|]. intros ps r H; injection H as _ <-. lia. }
  destruct (d =? COMMA); [|split; discriminate].
  pose proof (skip_ws_length r3) as Hw3.
  destruct (skip_ws r3) as [|q r4]; [split; discriminate|]. simpl in Hw3.
  destruct (q =? DQUOTE); [|split; discriminate].
  destruct (IH r4) as [Hne' Hlen']; [lia|lia|].
  destruct (object_pairs scan_value k r4) as [ps' r'| |];
    [|split; discriminate|congruence].
  specialize (Hlen' _ _ eq_refl).
  split; [discriminate|]. simpl. intros ps r H; injection H as _ <-. lia.
Qed.

Lemma JSONObject_total (k : nat) (s : text) :
  (length s < k)%nat -> (length s < n)%nat ->
  JSONObject scan_value k s <> Exhausted
  /\ forall v r, JSONObject scan_value k s = Scanned v r ->
                 (length r <= length s)%nat.
Proof.
  intros Hk Hn. unfold JSONObject.
  pose proof (skip_ws_length s) as Hw.
  destruct (skip_ws s) as [|c r0]; [split; discriminate|]. simpl in Hw.
  destruct (c =? RBRACE).
  { split; [discriminate|]. intros v r H; injection H as _ <-. lia. }
  destruct (c =? DQUOTE); [|split; discriminate].
  destruct (object_pairs_total k r0) as [Hne Hlen]; [lia|lia|].
  destruct (object_pairs scan_value k r0) as [ps r'| |];
    [|split; discriminate|congruence].
  specialize (Hlen _ _ eq_refl).
  split; [discriminate|]. simpl. intros v r H; injection H as _ <-. lia.
Qed.

End ContainersTotal.

Lemma scan_once_total (n : nat) : total_below n (scan_once n).
Proof.
  induction n as [|n IH]; intros s Hn; [lia|].
  destruct s as [|c s]; [split; discriminate|]. simpl in Hn.
  cbn [scan_once].
  destruct (c =? DQUOTE).
  { destruct (scanstring s) as [[str r0]|] eqn:Es; [|split; discriminate].
    apply (scanstring_length _ _ _ _ (le_n _)) in Es.
    split; [discriminate|]. intros v r H; injection H as _ <-. simpl; lia. }
  destruct (c =? LBRACE).
  { destruct (JSONObject_total _ n IH n s) as [Hne Hlen]; [lia|lia|].
    split; [exact Hne|]. intros v r H. apply Hlen in H. simpl; lia. }
  destruct (c =? LBRACKET).
  { destruct (JSONArray_total _ n IH n s) as [Hne Hlen]; [lia|lia|].
    split; [exact Hne|]. intros v r H. apply Hlen in H. simpl; lia. }
  destruct (scan_atom (c :: s)) as [[v0 r0]|] eqn:Ea; [|split; discriminate].
  apply scan_atom_length in Ea.
  split; [discriminate|]. intros v r H; injection H as _ <-. exact Ea.
Qed.

(** The budget [json_loads] gives to [scan_once] is enough: a [None] of
    [json_loads] is a decode error. *)
Lemma scan_once_fuel (s : text) :
  scan_once (S (length s)) (skip_ws s) <> Exhausted.
Proof.
  apply scan_once_total. pose proof (skip_ws_length s). lia.
Qed.

(** ** What [json_loads] returns, by the first character *)

Lemma scan_atom_kind (s : text) (v : value) (r : text) :
  scan_atom s = Some (v, r) -> is_container v = false.
Proof.
  unfold scan_atom, scan_number.
  repeat match goal with
         | |- context [strip_prefix ?p s] =>
             destruct (strip_prefix p s);
             [intros H; injection H as <- _; reflexivity|]
         end.
  destruct (match_integer s) as [[i r1]|].
  - destruct (match_frac r1) as [[f r2]|]; destruct (match_exp _) as [[e r3]|];
      destruct (_ ++ _); intros H; injection H as <- _; reflexivity.
  - repeat match goal with
           | |- context [strip_prefix ?p s] =>
               destruct (strip_prefix p s);
               [intros H; injection H as <- _; reflexivity|]
           end.
    discriminate.
Qed.

(** Only a text that starts with a brace or a bracket decodes to a dict or
    a list. *)
Lemma scan_once_closed (n : nat) (c : N) (s : text) (v : value) (r : text) :
  is_open c = false ->
  scan_once n (c :: s) = Scanned v r -> is_container v = false.
Proof.
  unfold is_open. intros Hc. apply orb_false_iff in Hc as [Hb Hk].
  destruct n as [|n]; [discriminate|]. cbn [scan_once]. rewrite Hb, Hk.
  destruct (c =? DQUOTE).
  - destruct (scanstring s) as [[str r0]|]; [|discriminate].
    intros H; injection H as <- _. reflexivity.
  - destruct (scan_atom (c :: s)) as [[v0 r0]|] eqn:Ea; [|discriminate].
    intros H; injection H as <- _. exact (scan_atom_kind _ _ _ Ea).
Qed.

Lemma scan_once_braced (n : nat) (s : text) (v : value) (r : text) :
  scan_once n (LBRACE :: s) = Scanned v r -> exists d, v = JObject d.
Proof.
  destruct n as [|n]; [discriminate|]. cbn [scan_once].
  change (LBRACE =? DQUOTE) with false. rewrite N.eqb_refl.
  unfold JSONObject. destruct (skip_ws s) as [|c r0]; [discriminate|].
  destruct (c =? RBRACE); [intros H; injection H as <- _; now exists []|].
  destruct (c =? DQUOTE); [|discriminate].
  destruct (object_pairs _ n r0) as [ps r'| |]; try discriminate.
  simpl. intros H; injection H as <- _. now exists (dict ps).
Qed.

Lemma skip_ws_suffix (s : text) : exists w, s = w ++ skip_ws s.
Proof.
  induction s as [|c s [w IH]]; [now exists []|]. simpl.
  destruct (is_json_ws c); [|now exists []].
  exists (c :: w). simpl. now rewrite <- IH.
Qed.

Lemma json_loads_closed (s : text) (v : value) :
  no_open s = true -> json_loads s = Some v -> is_container v = false.
Proof.
  intros Hs. unfold json_loads.
  destruct (strip_prefix [BOM] s); [discriminate|].
  destruct (scan_once (S (length s)) (skip_ws s)) as [v0 r| |] eqn:E;
    try discriminate.
  destruct (skip_ws r); [|discriminate]. intros H; injection H as <-.
  destruct (skip_ws_suffix s) as [w Hw].
  destruct (skip_ws s) as [|c s'] eqn:Es; [discriminate E|].
  apply (scan_once_closed _ c s' _ _) in E; [exact E|].
  unfold no_open in Hs. rewrite forallb_forall in Hs.
  apply negb_true_iff, Hs. rewrite Hw. apply in_or_app. right. now left.
Qed.

(** A braced text that decodes on its own is scanned to the same value
    when text follows it; the decode then succeeds when only white space
    follows. *)
Lemma json_loads_braced_rest (m post : text) (v : value) :
  json_loads (braced m) = Some v ->
  exists r, skip_ws r = []
            /\ json_loads (braced m ++ post)
               = match skip_ws (r ++ post) with
                 | [] => Some v
                 | _ :: _ => None
                 end.
Proof.
  unfold json_loads, braced. cbn [app].
  rewrite !(strip_prefix_mismatch BOM LBRACE) by discriminate.
  rewrite !(skip_ws_stop LBRACE) by reflexivity.
  destruct (scan_once _ (LBRACE :: m ++ [RBRACE])) as [v0 r| |] eqn:E;
    try discriminate.
  destruct (skip_ws r) eqn:Er; [|discriminate]. intros H; injection H as <-.
  destruct (scan_once_braced _ _ _ _ E) as [d ->].
  change (LBRACE :: (m ++ [RBRACE]) ++ post)
    with ((LBRACE :: m ++ [RBRACE]) ++ post).
  assert (Hfuel : (S (length (LBRACE :: m ++ [RBRACE]))
                   <= S (length ((LBRACE :: m ++ [RBRACE]) ++ post)))%nat)
    by (rewrite (length_app (LBRACE :: m ++ [RBRACE]) post); lia).
  rewrite (scan_once_ext _ _ _ _ _ post Hfuel E eq_refl).
  exists r. split; [exact Er|reflexivity].
Qed.

Lemma json_loads_braced_ext (m post : text) (v : value) :
  json_loads (braced m) = Some v ->
  json_loads (braced m ++ post) = Some v
  \/ json_loads (braced m ++ post) = None.
Proof.
  intros H. destruct (json_loads_braced_rest m post v H) as (r & _ & ->).
  destruct (skip_ws (r ++ post)); auto.
Qed.

(** Stages 1 to 3 on a braced text inside prose. *)
Lemma parse_json_recovers (pre m post : text) (v : value) :
  json_loads (braced m) = Some v ->
  occurs FENCE (braced m) = false ->
  no_open pre = true -> no_rbrace post = true ->
  parse_json (pre ++ braced m ++ post) = Returned v.
Proof.
  intros Hv Hocc Hpre Hpost. unfold parse_json.
  destruct (strip_fences_keeps m Hocc pre post) as (pre' & post' & -> & Hp & Hq).
  assert (Hpre' : no_open pre' = true)
    by (eapply forallb_incl; [apply Subseq_incl; exact Hp|exact Hpre]).
  assert (Hpost' : no_rbrace post' = true)
    by (eapply forallb_incl; [apply Subseq_incl; exact Hq|exact Hpost]).
  cbv zeta.
  replace (skipn (start_index (pre' ++ braced m ++ post'))
                 (pre' ++ braced m ++ post'))
    with (braced m ++ post')
    by (symmetry; apply (start_after pre' LBRACE); [exact Hpre'|reflexivity]).
  destruct (json_loads_braced_ext m post' v Hv) as [-> | ->]; [reflexivity|].
  rewrite re_search_braces_span
    by (try apply no_open_no_lbrace; assumption).
  now rewrite Hv.
Qed.



Lemma json_loads_braced_object (m : text) (v : value) :
  json_loads (braced m) = Some v -> exists d, v = JObject d.
Proof.
  unfold json_loads, braced.
  rewrite (strip_prefix_mismatch BOM LBRACE) by discriminate.
  rewrite (skip_ws_stop LBRACE) by reflexivity.
  destruct (scan_once _ _) as [v0 r| |] eqn:E; try discriminate.
  destruct (skip_ws r); [|discriminate]. intros H; injection H as <-.
  exact (scan_once_braced _ _ _ _ E).
Qed.

(** ** When [parse_json] raises *)

Lemma parse_json_Raised_iff (t : text) :
  parse_json t = Raised <->
  json_loads (skipn (start_index (strip_fences t)) (strip_fences t)) = None
  /\ exists m, re_search_braces (strip_fences t) = Some m
               /\ json_loads m = None.
Proof.
  unfold parse_json. cbv zeta.
  destruct (json_loads (skipn _ _)) as [v|].
  - split; [discriminate|intros [H _]; discriminate H].
  - destruct (re_search_braces (strip_fences t)) as [m|].
    + destruct (json_loads m) as [v|] eqn:E.
      * split; [discriminate|].
        intros [_ (m' & Hm & Hn)]. injection Hm as <-. congruence.
      * split; [|reflexivity]. intros _. split; [reflexivity|]. now exists m.
    + split; [discriminate|]. intros [_ (m & Hm & _)]. discriminate Hm.
Qed.

Lemma strip_fences_braced (m : text) :
  occurs FENCE (braced m) = false -> strip_fences (braced m) = braced m.
Proof.
  intros H.
  destruct (strip_fences_keeps m H [] []) as (pre' & post' & Heq & Hp & Hq).
  inversion Hp; subst. inversion Hq; subst.
  cbn [app] in Heq. now rewrite app_nil_r in Heq.
Qed.

Lemma skip_ws_reaches (s : text) (c : N) :
  In c s -> is_json_ws c = false -> skip_ws s <> [].
Proof.
  induction s as [|a s IH]; [intros []|]. simpl.
  intros [->|Hin] Hc.
  - rewrite Hc. discriminate.
  - destruct (is_json_ws a); [now apply IH|discriminate].
Qed.

(** X15: a decodable object followed by any text that ends with another
    braced text (no fence inside): stage 2 fails on the extra data, the
    greedy span is the whole text, and its decode raises. *)
Lemma sibling_objects_raise (m1 sep m2 : text) (v1 : value) :
  json_loads (braced m1) = Some v1 ->
  occurs FENCE (braced m1 ++ sep ++ braced m2) = false ->
  parse_json (braced m1 ++ sep ++ braced m2) = Raised.
Proof.
  intros Hv Hocc.
  assert (Hnone : json_loads (braced m1 ++ sep ++ braced m2) = None).
  { destruct (json_loads_braced_rest m1 (sep ++ braced m2) v1 Hv)
      as (r & _ & ->).
    destruct (skip_ws (r ++ sep ++ braced m2)) eqn:E; [|reflexivity].
    exfalso. apply (skip_ws_reaches (r ++ sep ++ braced m2) LBRACE);
      [|reflexivity|exact E].
    apply in_or_app; right. apply in_or_app; right. now left. }
  assert (Hw : braced m1 ++ sep ++ braced m2
               = braced (m1 ++ RBRACE :: sep ++ LBRACE :: m2)).
  { unfold braced. cbn [app]. f_equal.
    rewrite <- !app_assoc. cbn [app]. f_equal. f_equal.
    now rewrite <- app_assoc. }
  rewrite Hw in *. apply parse_json_Raised_iff.
  rewrite (strip_fences_braced _ Hocc). split; [exact Hnone|].
  exists (braced (m1 ++ RBRACE :: sep ++ LBRACE :: m2)). split; [|exact Hnone].
  pose proof (re_search_braces_span [] (m1 ++ RBRACE :: sep ++ LBRACE :: m2) []
                eq_refl eq_refl) as H.
  cbn [app] in H. now rewrite app_nil_r in H.
Qed.

(** ** Worked examples *)

Example lit_quotes : lit "{'a':1}" = [123; 34; 97; 34; 58; 49; 125].
Proof. reflexivity. Qed.

Example fenced_answer :
  parse_json (lit "```json {'destination':'Paris','duration_days':3} ```")
  = Returned (JObject [(lit "destination", JString (lit "Paris"));
                       (lit "duration_days", JInt 3)]).
Proof. vm_compute. reflexivity. Qed.

Example brace_in_string :
  parse_json (lit "{'a':'{'}") = Returned (JObject [(lit "a", JString (lit "{"))]).
Proof. vm_compute. reflexivity. Qed.

Example no_brackets : parse_json (lit "I cannot help with that.") = Returned EMPTY.
Proof. vm_compute. reflexivity. Qed.

Example open_span_without_close : parse_json (lit "{ unfinished") = Returned EMPTY.
Proof. vm_compute. reflexivity. Qed.

Example duplicate_keys :
  json_loads (lit "{'a':1,'b':2,'a':3}")
  = Some (JObject [(lit "a", JInt 3); (lit "b", JInt 2)]).
Proof. vm_compute. reflexivity. Qed.

(** * The claims *)

(** ** The text recovery parser *)

(** C1 (the code departs from the claim): [parse_json] does not return
    normally on every input.  On the model answer
    [Plan: {destination: Paris}] stage 2 fails, the greedy span of stage 3
    is [{destination: Paris}], that span does not decode, and the exception
    of the second [json.loads], which no handler encloses, propagates. *)
Theorem parse_json_raises_on_undecodable_span :
  let t := lit "Plan: {destination: Paris}" in
  json_loads (skipn (start_index (strip_fences t)) (strip_fences t)) = None
  /\ re_search_braces (strip_fences t) = Some (lit "{destination: Paris}")
  /\ json_loads (lit "{destination: Paris}") = None
  /\ parse_json t = Raised.
Proof. vm_compute. repeat split. Qed.

(** C2 (the code departs from the claim): on two sibling top-level
    objects, [{"a":1} {"b":2}], each of which decodes on its own,
    [parse_json] does not return an empty object: the merged span fails to
    decode in stage 3 and the exception propagates. *)
Theorem parse_json_raises_on_sibling_objects :
  json_loads (lit "{'a':1}") = Some (JObject [(lit "a", JInt 1)])
  /\ json_loads (lit "{'b':2}") = Some (JObject [(lit "b", JInt 2)])
  /\ re_search_braces (strip_fences (lit "{'a':1} {'b':2}"))
     = Some (lit "{'a':1} {'b':2}")
  /\ parse_json (lit "{'a':1} {'b':2}") = Raised.
Proof. vm_compute. repeat split. Qed.

(** C3, as stated, fails: [42] contains neither brace nor bracket, and
    [parse_json] returns the integer 42, not an empty object. *)
Lemma parse_json_scalar_counterexample :
  no_open (lit "42") = true
  /\ parse_json (lit "42") = Returned (JInt 42)
  /\ parse_json (lit "42") <> Returned EMPTY.
Proof. vm_compute. repeat split. discriminate. Qed.

(** C3, amended: on an input without [{] and [[] (the empty string
    included) [parse_json] never raises.  Stage 2 decodes the whole
    fence-stripped text; when that succeeds the result is the decoded
    value, which is then neither a dict nor a list, and otherwise the
    result is the empty object. *)
Theorem parse_json_without_brackets (t : text) :
  no_open t = true ->
  parse_json t
  = Returned match json_loads (strip_fences t) with
             | Some v => v
             | None => EMPTY
             end
  /\ forall v, json_loads (strip_fences t) = Some v -> is_container v = false.
Proof.
  intros Ht.
  assert (Hu : no_open (strip_fences t) = true)
    by (eapply forallb_incl;
        [apply Subseq_incl, strip_fences_Subseq|exact Ht]).
  split; [|intros v; now apply json_loads_closed].
  unfold parse_json. cbv zeta. rewrite (start_none _ Hu).
  destruct (json_loads (strip_fences t)); [reflexivity|].
  now rewrite (re_search_braces_none _ (no_open_no_lbrace _ Hu)).
Qed.

Lemma parse_json_without_brackets_witness :
  parse_json [] = Returned EMPTY
  /\ parse_json (lit "Sorry, no plan today.") = Returned EMPTY.
Proof.
  split.
  - exact (proj1 (parse_json_without_brackets [] eq_refl)).
  - exact (proj1 (parse_json_without_brackets
                    (lit "Sorry, no plan today.") eq_refl)).
Defined.

(** C4, as stated, fails: a valid object between prose whose string value
    holds a triple backtick comes back with another string value. *)
Lemma parse_json_fence_in_value_counterexample :
  let s := lit "{'note':'use ``` to open a fence'}" in
  let original := JObject [(lit "note", JString (lit "use ``` to open a fence"))] in
  json_loads s = Some original
  /\ parse_json (lit "Here you go: " ++ s ++ lit " Hope that helps!")
     = Returned (JObject [(lit "note", JString (lit "use to open a fence"))])
  /\ parse_json (lit "Here you go: " ++ s ++ lit " Hope that helps!")
     <> Returned original.
Proof. vm_compute. repeat split. discriminate. Qed.

(** C4, amended: let a text [{ m }] decode, by [json.loads], to [v] (a
    dict) and contain no triple backtick.  Put it after any leading prose
    without [{] and [[] and before any trailing prose without [}]; the
    prose may hold code fences anywhere.  Then [parse_json] returns [v]. *)
Theorem parse_json_recovers_wrapped_object (pre m post : text) (v : value) :
  json_loads (braced m) = Some v ->
  occurs FENCE (braced m) = false ->
  no_open pre = true ->
  no_rbrace post = true ->
  parse_json (pre ++ braced m ++ post) = Returned v
  /\ exists d, v = JObject d.
Proof.
  intros Hv Hocc Hpre Hpost. split.
  - now apply parse_json_recovers.
  - exact (json_loads_braced_object m v Hv).
Qed.

Lemma parse_json_recovers_wrapped_object_witness :
  parse_json (lit "Here you go: ```json {'a': {'b': [1, 2]}} ``` Hope that helps!")
  = Returned (JObject [(lit "a", JObject [(lit "b", JArray [JInt 1; JInt 2])])]).
Proof.
  exact (proj1 (parse_json_recovers_wrapped_object
                  (lit "Here you go: ```json ")
                  (lit "'a': {'b': [1, 2]}")
                  (lit " ``` Hope that helps!")
                  (JObject [(lit "a", JObject [(lit "b", JArray [JInt 1; JInt 2])])])
                  eq_refl eq_refl eq_refl eq_refl)).
Defined.

(** C7, as stated, fails: the object [{"a":"{```"}] has a string field
    with a literal brace, and [parse_json] returns [{"a":"{"}]. *)
Lemma parse_json_brace_and_fence_counterexample :
  json_loads (lit "{'a':'{```'}") = Some (JObject [(lit "a", JString (lit "{```"))])
  /\ parse_json (lit "{'a':'{```'}") = Returned (JObject [(lit "a", JString (lit "{"))])
  /\ parse_json (lit "{'a':'{```'}")
     <> Returned (JObject [(lit "a", JString (lit "{```"))]).
Proof. vm_compute. repeat split. discriminate. Qed.

(** C7, amended: an input [{ m }] that the structural decoder
    [json.loads] decodes to [v], and that contains no triple backtick, is
    decoded by [parse_json] to that same [v], whatever braces and brackets
    its string fields contain. *)
Theorem parse_json_decodes_object_text (m : text) (v : value) :
  json_loads (braced m) = Some v ->
  occurs FENCE (braced m) = false ->
  parse_json (braced m) = Returned v.
Proof.
  intros Hv Hocc.
  pose proof (parse_json_recovers [] m [] v Hv Hocc eq_refl eq_refl) as H.
  cbn [app] in H. now rewrite app_nil_r in H.
Qed.

Lemma parse_json_decodes_object_text_witness :
  parse_json (lit "{'a':'{', 'b':'}}[{'}")
  = Returned (JObject [(lit "a", JString (lit "{"));
                       (lit "b", JString (lit "}}[{"))]).
Proof.
  exact (parse_json_decodes_object_text
           (lit "'a':'{', 'b':'}}[{'")
           (JObject [(lit "a", JString (lit "{")); (lit "b", JString (lit "}}[{"))])
           eq_refl eq_refl).
Defined.

(** *** The state of the library between two calls *)

Lemma memo_get_In (key : text) (m : list (text * text)) (stored : text) :
  memo_get key m = Some stored -> In (key, stored) m.
Proof.
  induction m as [|[k v] m IH]; simpl; [discriminate|].
  destruct (list_eq_dec N.eq_dec key k) as [->|ne].
  - intros H; injection H as ->. now left.
  - intros H. right. now apply IH.
Qed.

Lemma memo_setdefault_ok (key : text) (m : list (text * text)) :
  memo_ok m ->
  fst (memo_setdefault key m) = key /\ memo_ok (snd (memo_setdefault key m)).
Proof.
  intros Hm. unfold memo_setdefault.
  destruct (memo_get key m) as [stored|] eqn:E; cbn [fst snd].
  - split; [exact (Hm _ _ (memo_get_In _ _ _ E))|exact Hm].
  - split; [reflexivity|]. intros k stored Hin.
    apply in_app_or in Hin as [Hin|[Heq|[]]]; [exact (Hm _ _ Hin)|].
    injection Heq as <- <-. reflexivity.
Qed.

Section ContainersOverMemo.

Variable scan_value : text -> scan value.
Variable scan_value_st :
  text -> list (text * text) -> scan value * list (text * text).

Hypothesis scan_value_st_ok :
  forall s m, memo_ok m ->
    fst (scan_value_st s m) = scan_value s /\ memo_ok (snd (scan_value_st s m)).

Lemma array_items_st_ok (k : nat) :
  forall s m, memo_ok m ->
    fst (array_items_st scan_value_st k s m) = array_items scan_value k s
    /\ memo_ok (snd (array_items_st scan_value_st k s m)).
Proof.
  induction k as [|k IH]; intros s m Hm; [now split|].
  cbn [array_items_st array_items].
  destruct (scan_value_st_ok s m Hm) as [E Hm1].
  destruct (scan_value_st s m) as [res m1]. cbn [fst snd] in E, Hm1.
  rewrite <- E. destruct res as [v r| |]; [|now split|now split].
  destruct (skip_ws r) as [|d r1]; [now split|].
  destruct (d =? RBRACKET); [now split|].
  destruct (d =? COMMA); [|now split].
  destruct (IH (skip_ws r1) m1 Hm1) as [E2 Hm2].
  destruct (array_items_st scan_value_st k (skip_ws r1) m1) as [items m2].
  cbn [fst snd] in *. now rewrite E2.
Qed.

Lemma JSONArray_st_ok (k : nat) (s : text) (m : list (text * text)) :
  memo_ok m ->
  fst (JSONArray_st scan_value_st k s m) = JSONArray scan_value k s
  /\ memo_ok (snd (JSONArray_st scan_value_st k s m)).
Proof.
  intros Hm. unfold JSONArray_st, JSONArray.
  destruct (skip_ws s) as [|c r]; [now split|].
  destruct (c =? RBRACKET); [now split|].
  destruct (array_items_st_ok k (c :: r) m Hm) as [E Hm1].
  destruct (array_items_st scan_value_st k (c :: r) m) as [items m1].
  cbn [fst snd] in *. now rewrite E.
Qed.

Lemma object_pairs_st_ok (k : nat) :
  forall s m, memo_ok m ->
    fst (object_pairs_st scan_value_st k s m) = object_pairs scan_value k s
    /\ memo_ok (snd (object_pairs_st scan_value_st k s m)).
Proof.
  induction k as [|k IH]; intros s m Hm; [now split|].
  cbn [object_pairs_st object_pairs].
  destruct (scanstring s) as [[scanned r]|]; [|now split].
  destruct (memo_setdefault_ok scanned m Hm) as [Ekey Hm0].
  destruct (memo_setdefault scanned m) as [key m0].
  cbn [fst snd] in Ekey, Hm0. subst key.
  destruct (skip_ws r) as [|c r1]; [now split|].
  destruct (c =? COLON); [|now split].
  destruct (scan_value_st_ok (skip_ws r1) m0 Hm0) as [E Hm1].
  destruct (scan_value_st (skip_ws r1) m0) as [res m1].
  cbn [fst snd] in E, Hm1.
  rewrite <- E. destruct res as [v r2| |]; [|now split|now split].
  destruct (skip_ws r2) as [|d r3]; [now split|].
  destruct (d =? RBRACE); [now split|].
  destruct (d =? COMMA); [|now split].
  destruct (skip_ws r3) as [|q r4]; [now split|].
  destruct (q =? DQUOTE); [|now split].
  destruct (IH r4 m1 Hm1) as [E2 Hm2].
  destruct (object_pairs_st scan_value_st k r4 m1) as [ps m2].
  cbn [fst snd] in *. now rewrite E2.
Qed.

Lemma JSONObject_st_ok (k : nat) (s : text) (m : list (text * text)) :
  memo_ok m ->
  fst (JSONObject_st scan_value_st k s m) = JSONObject scan_value k s
  /\ memo_ok (snd (JSONObject_st scan_value_st k s m)).
Proof.
  intros Hm. unfold JSONObject_st, JSONObject.
  destruct (skip_ws s) as [|c r]; [now split|].
  destruct (c =? RBRACE); [now split|].
  destruct (c =? DQUOTE); [|now split].
  destruct (object_pairs_st_ok k r m Hm) as [E Hm1].
  destruct (object_pairs_st scan_value_st k r m) as [ps m1].
  cbn [fst snd] in *. now rewrite E.
Qed.

End ContainersOverMemo.

(** Over a memo that [setdefault] has filled, the scanner finds what the
    scanner without a memo finds. *)
Lemma scan_once_st_ok (fuel : nat) :
  forall s m, memo_ok m ->
    fst (scan_once_st fuel s m) = scan_once fuel s
    /\ memo_ok (snd (scan_once_st fuel s m)).
Proof.
  induction fuel as [|fuel IH]; intros s m Hm; [now split|].
  cbn [scan_once_st scan_once].
  destruct s as [|c s']; [now split|].
  destruct (c =? DQUOTE).
  { destruct (scanstring s') as [[str r]|]; now split. }
  destruct (c =? LBRACE).
  { now apply JSONObject_st_ok. }
  destruct (c =? LBRACKET).
  { now apply JSONArray_st_ok. }
  destruct (scan_atom (c :: s')) as [[v r]|]; now split.
Qed.

Lemma json_loads_st_ok (s : text) (st : interp) :
  consistent st ->
  fst (json_loads_st s st) = json_loads s
  /\ consistent (snd (json_loads_st s st)).
Proof.
  intros [Hcache Hmemo]. unfold json_loads_st, json_loads.
  destruct (strip_prefix [BOM] s); [now repeat split|].
  destruct (scan_once_st_ok (S (length s)) (skip_ws s) (memo st) Hmemo)
    as [E _].
  destruct (scan_once_st (S (length s)) (skip_ws s) (memo st)) as [res m'].
  cbn [fst snd] in *. rewrite <- E.
  split; [reflexivity|]. split; [exact Hcache|]. intros k stored [].
Qed.

Lemma pattern_eqb_eq (p q : pattern) : pattern_eqb p q = true -> p = q.
Proof. destruct p, q; simpl; congruence. Qed.

Lemma cache_get_In (p : pattern) (cache : list (pattern * regex)) (r : regex) :
  cache_get p cache = Some r -> In (p, r) cache.
Proof.
  induction cache as [|[q r'] cache IH]; simpl; [discriminate|].
  destruct (pattern_eqb p q) eqn:E.
  - intros H; injection H as ->. apply pattern_eqb_eq in E as ->. now left.
  - intros H. right. now apply IH.
Qed.

(** A call of [re._compile] gives the compiled form of its pattern,
    whether it finds it in the cache or not. *)
Lemma re_compile_st_ok (p : pattern) (st : interp) :
  consistent st ->
  fst (re_compile_st p st) = re_compile p
  /\ consistent (snd (re_compile_st p st)).
Proof.
  intros [Hcache Hmemo]. unfold re_compile_st.
  destruct (cache_get p (re_cache st)) as [r|] eqn:E; cbn [fst snd].
  - split; [exact (Hcache _ _ (cache_get_In _ _ _ E))|now split].
  - split; [reflexivity|]. split; [|exact Hmemo]. cbn [re_cache].
    intros q r Hin. apply in_app_or in Hin as [Hin|[Heq|[]]].
    + apply Hcache. destruct (Nat.leb MAXCACHE (length (re_cache st)));
        [|exact Hin].
      destruct (re_cache st); [destruct Hin|now right].
    + injection Heq as <- <-. reflexivity.
Qed.

(** [parse_json] run over a consistent state returns what the function
    of the text alone returns, and leaves a consistent state. *)
Lemma parse_json_st_ok (t : text) (st : interp) :
  consistent st ->
  fst (parse_json_st t st) = parse_json t
  /\ consistent (snd (parse_json_st t st)).
Proof.
  intros H0. unfold parse_json_st, parse_json, strip_fences,
               re_sub_st, re_search_st.
  destruct (re_compile_st_ok PAT_JSON_FENCE st H0) as [E1 H1].
  destruct (re_compile_st PAT_JSON_FENCE st) as [r1 st1].
  cbn [fst snd] in E1, H1. subst r1.
  destruct (re_compile_st_ok PAT_FENCE st1 H1) as [E2 H2].
  destruct (re_compile_st PAT_FENCE st1) as [r2 st2].
  cbn [fst snd] in E2, H2. subst r2.
  cbn [re_compile regex_sub]. cbv zeta.
  set (text := strip (re_sub_fence FENCE (re_sub_fence FENCE_JSON (strip t)))).
  destruct (json_loads_st_ok (skipn (start_index text) text) st2 H2)
    as [E3 H3].
  destruct (json_loads_st (skipn (start_index text) text) st2) as [res3 st3].
  cbn [fst snd] in E3, H3. rewrite <- E3.
  destruct res3 as [v|]; [now split|].
  destruct (re_compile_st_ok PAT_BRACES st3 H3) as [E4 H4].
  destruct (re_compile_st PAT_BRACES st3) as [r4 st4].
  cbn [fst snd] in E4, H4. subst r4. cbn [re_compile regex_search].
  destruct (re_search_braces text) as [m|]; [|now split].
  destruct (json_loads_st_ok m st4 H4) as [E5 H5].
  destruct (json_loads_st m st4) as [res5 st5].
  cbn [fst snd] in E5, H5. rewrite <- E5.
  destruct res5 as [v|]; now split.
Qed.

Lemma fresh_consistent : consistent fresh.
Proof. split; intros ? ? []. Qed.

(** Every state reached by calls of [parse_json] is consistent. *)
Lemma reachable_consistent (st : interp) : reachable st -> consistent st.
Proof.
  induction 1 as [|t st _ IH]; [exact fresh_consistent|].
  exact (proj2 (parse_json_st_ok t st IH)).
Qed.

(** The state is read: over a memo that holds another string under the
    key [a], which no call of [setdefault(key, key)] writes, the decoded
    object has that string for its key. *)
Lemma parse_json_st_reads_memo :
  fst (parse_json_st (lit "{'a': 1}")
         {| re_cache := []; memo := [(of_string "a", of_string "b")] |})
  = Returned (JObject [(of_string "b", JInt 1)])
  /\ parse_json (lit "{'a': 1}") = Returned (JObject [(of_string "a", JInt 1)]).
Proof. vm_compute. split; reflexivity. Qed.

(** C8: [parse_json] keeps no state of its own, and the state its library
    calls keep (the compile cache of [re], the key memo of the default
    JSON decoder) has no influence on what it returns: run on the same
    text from any two consistent states, it yields the same output; a
    second run, from the state the first run left, yields the output of
    the first; the state it leaves is consistent again; and the output is
    that of [parse_json] as a function of the text alone. *)
Theorem parse_json_state_independent (t : text) (st1 st2 : interp) :
  consistent st1 -> consistent st2 ->
  fst (parse_json_st t st1) = fst (parse_json_st t st2)
  /\ fst (parse_json_st t (snd (parse_json_st t st1)))
     = fst (parse_json_st t st1)
  /\ consistent (snd (parse_json_st t st1))
  /\ fst (parse_json_st t st1) = parse_json t.
Proof.
  intros H1 H2.
  destruct (parse_json_st_ok t st1 H1) as [E1 H1'].
  destruct (parse_json_st_ok t st2 H2) as [E2 _].
  destruct (parse_json_st_ok t _ H1') as [E3 _].
  repeat split; try congruence; apply H1'.
Qed.

Lemma parse_json_state_independent_witness :
  let t := lit "```json {'k': 1} ```" in
  let used := snd (parse_json_st (lit "Sure: {'a': {'k': 2}} Enjoy!") fresh) in
  re_cache used = [(PAT_JSON_FENCE, FenceSpaces FENCE_JSON);
                   (PAT_FENCE, FenceSpaces FENCE);
                   (PAT_BRACES, BraceSpan)]
  /\ fst (parse_json_st t fresh) = Returned (JObject [(of_string "k", JInt 1)])
  /\ fst (parse_json_st t used) = Returned (JObject [(of_string "k", JInt 1)]).
Proof.
  cbv zeta.
  assert (Hfresh : consistent fresh) by (split; intros ? ? []).
  assert (Hused : consistent
                    (snd (parse_json_st (lit "Sure: {'a': {'k': 2}} Enjoy!")
                            fresh))).
  { vm_compute. split; [|intros ? ? []].
    intros p r [E|[E|[E|[]]]]; injection E as <- <-; reflexivity. }
  destruct (parse_json_state_independent (lit "```json {'k': 1} ```")
              fresh _ Hfresh Hused) as (E12 & _ & _ & E).
  split; [vm_compute; reflexivity|]. split.
  - rewrite E. vm_compute. reflexivity.
  - rewrite <- E12, E. vm_compute. reflexivity.
Defined.


(** ** The handlers *)

(** *** The items of a decoded dict *)













(** C6: when the API key is not in the environment (or is empty),
    [POST /api/plan] answers with status 500 and a detail that names the
    missing variable, and no call to the service has been made. *)
Theorem plan_without_credential
        (json_dumps py_str : value -> text)
        (environ : text -> option text) (llm : service) (message : text) :
  environ KEY_NAME = None \/ environ KEY_NAME = Some [] ->
  post_api_plan json_dumps py_str environ llm message
  = (HTTPException 500
       (Some (of_string "ANTHROPIC_API_KEY environment variable not set")), [])
  /\ occurs KEY_NAME (of_string "ANTHROPIC_API_KEY environment variable not set")
     = true
  /\ status (fst (post_api_plan json_dumps py_str environ llm message)) = 500%Z.
Proof.
  intros H. unfold post_api_plan, plan.
  destruct H as [-> | ->]; repeat split.
Qed.

Lemma plan_without_credential_witness :
  snd (post_api_plan str_of_scalar str_of_scalar (fun _ => None)
                     (fun _ _ => Text (of_string "{}")) (of_string "a trip to Paris"))
  = [].
Proof.
  exact (f_equal snd
           (proj1 (plan_without_credential str_of_scalar str_of_scalar
                     (fun _ => None) (fun _ _ => Text (of_string "{}"))
                     (of_string "a trip to Paris") (or_introl eq_refl)))).
Defined.

Lemma startswith_spec (prefix path : text) :
  startswith prefix path = true <-> has_prefix prefix path.
Proof.
  unfold startswith, has_prefix. split.
  - destruct (strip_prefix prefix path) as [r|] eqn:E; [|discriminate].
    intros _. exists r. now apply strip_prefix_Some.
  - intros [r Hr]. apply strip_prefix_Some in Hr. now rewrite Hr.
Qed.

(** C9: for a path that does not begin with [api/] the catch-all route
    answers with the embedded page and status 200; for a path that begins
    with [api/] it answers with status 404. *)
Theorem serve_routes (path : text) :
  (~ has_prefix (of_string "api/") path ->
   serve path = HTMLResponse HTML /\ status (serve path) = 200%Z)
  /\ (has_prefix (of_string "api/") path ->
      serve path = HTTPException 404 None /\ status (serve path) = 404%Z).
Proof.
  unfold serve. split; intros H.
  - destruct (startswith (of_string "api/") path) eqn:E; [|now split].
    apply startswith_spec in E. contradiction.
  - apply startswith_spec in H. rewrite H. now split.
Qed.

Lemma serve_routes_witness :
  serve (of_string "anything-not-starting-with-api") = HTMLResponse HTML
  /\ serve (of_string "api/unknown-route") = HTTPException 404 None.
Proof.
  split.
  - refine (proj1 (proj1 (serve_routes _) _)).
    intros [rest Hrest]. discriminate Hrest.
  - refine (proj1 (proj2 (serve_routes _) _)).
    exists (of_string "unknown-route"). reflexivity.
Defined.

(** * Further properties of the code *)

(** ** [parse_json]: white space around the answer *)

Lemma lstrip_space (w s : text) :
  forallb isspace w = true -> lstrip (w ++ s) = lstrip s.
Proof.
  induction w as [|c w IH]; [reflexivity|]. simpl.
  destruct (isspace c); [exact IH|discriminate].
Qed.

Lemma lstrip_all_space (w : text) : forallb isspace w = true -> lstrip w = [].
Proof.
  intros H. rewrite <- (app_nil_r w). now rewrite lstrip_space.
Qed.

Lemma rstrip_space (s w : text) :
  forallb isspace w = true -> rstrip (s ++ w) = rstrip s.
Proof.
  intros H. unfold rstrip. rewrite rev_app_distr, lstrip_space; [reflexivity|].
  rewrite forallb_forall in *. intros x Hx. apply H. now apply in_rev.
Qed.

Lemma lstrip_cases (s : text) :
  lstrip s = [] \/ exists c r, lstrip s = c :: r /\ isspace c = false.
Proof.
  induction s as [|a s IH]; [now left|]. simpl.
  destruct (isspace a) eqn:E; [exact IH|]. right. now exists a, s.
Qed.

Lemma lstrip_then_space (t w : text) :
  forallb isspace w = true -> rstrip (lstrip (t ++ w)) = rstrip (lstrip t).
Proof.
  intros Hw. induction t as [|a t IH]; simpl.
  - rewrite (lstrip_all_space w Hw). reflexivity.
  - destruct (isspace a); [exact IH|].
    change (a :: t ++ w) with ((a :: t) ++ w). now apply rstrip_space.
Qed.

Lemma strip_space (w1 t w2 : text) :
  forallb isspace w1 = true -> forallb isspace w2 = true ->
  strip (w1 ++ t ++ w2) = strip t.
Proof.
  intros H1 H2. unfold strip. rewrite lstrip_space by exact H1.
  now apply lstrip_then_space.
Qed.

(** X1: white space (in the sense of [str.strip]) before and after the
    answer never changes what [parse_json] does. *)
Theorem parse_json_ignores_outer_space (w1 t w2 : text) :
  forallb isspace w1 = true -> forallb isspace w2 = true ->
  parse_json (w1 ++ t ++ w2) = parse_json t.
Proof.
  intros H1 H2. unfold parse_json, strip_fences.
  now rewrite (strip_space w1 t w2 H1 H2).
Qed.

Lemma parse_json_ignores_outer_space_witness :
  parse_json ([0x0A; 0x20; 0xA0] ++ lit "{'a':1}" ++ [0x3000; 0x0D; 0x0A])
  = parse_json (lit "{'a':1}").
Proof.
  exact (parse_json_ignores_outer_space
           [0x0A; 0x20; 0xA0] (lit "{'a':1}") [0x3000; 0x0D; 0x0A]
           eq_refl eq_refl).
Defined.

(** ** Stage 1 applied twice *)

Lemma re_sub_fence_id (tag : text) (s : text) :
  occurs FENCE s = false ->
  forall n, re_sub_fence_from n (FENCE ++ tag) s = s.
Proof.
  induction s as [|c s IH]; intros Hocc n.
  - destruct n; reflexivity.
  - destruct n as [|n]; [reflexivity|]. cbn [re_sub_fence_from].
    destruct (strip_prefix (FENCE ++ tag) (c :: s)) as [r|] eqn:E.
    + exfalso. apply strip_prefix_Some in E. rewrite <- app_assoc in E.
      apply strip_prefix_Some in E. apply occurs_head in Hocc. congruence.
    + now rewrite (IH (occurs_cons _ _ _ Hocc)).
Qed.

Lemma lstrip_idem (s : text) : lstrip (lstrip s) = lstrip s.
Proof.
  destruct (lstrip_cases s) as [->|(c & r & -> & Hc)]; [reflexivity|].
  simpl. now rewrite Hc.
Qed.

Lemma rstrip_idem (s : text) : rstrip (rstrip s) = rstrip s.
Proof.
  unfold rstrip. now rewrite rev_involutive, lstrip_idem.
Qed.

Lemma lstrip_rstrip_lstrip (s : text) :
  lstrip (rstrip (lstrip s)) = rstrip (lstrip s).
Proof.
  destruct (lstrip_cases s) as [->|(c & r & -> & Hc)]; [reflexivity|].
  destruct (rstrip_prefix (c :: r)) as [w Hw].
  destruct (rstrip (c :: r)) as [|c' r'] eqn:E; [reflexivity|].
  injection Hw as <- _. simpl. now rewrite Hc.
Qed.

Lemma strip_idem (s : text) : strip (strip s) = strip s.
Proof.
  unfold strip. now rewrite lstrip_rstrip_lstrip, rstrip_idem.
Qed.

Lemma strip_fences_stripped (t : text) : strip (strip_fences t) = strip_fences t.
Proof. unfold strip_fences. apply strip_idem. Qed.

(** X2: the fence stripping of [parse_json] is idempotent: on a text it has
    already cleaned it changes nothing. *)
Theorem strip_fences_idempotent (t : text) :
  strip_fences (strip_fences t) = strip_fences t.
Proof.
  pose proof (strip_fences_clean t) as Hc.
  unfold strip_fences at 1. rewrite strip_fences_stripped.
  unfold re_sub_fence.
  change FENCE_JSON with (FENCE ++ of_string "json").
  rewrite (re_sub_fence_id (of_string "json") _ Hc).
  pose proof (re_sub_fence_id [] _ Hc) as Hid. rewrite app_nil_r in Hid.
  rewrite Hid. apply strip_fences_stripped.
Qed.

(** ** The greedy span of stage 3 *)

Lemma upto_last_rbrace_spec (s m : text) :
  upto_last_rbrace s = Some m ->
  exists m' b, m = m' ++ [RBRACE] /\ s = m ++ b /\ no_rbrace b = true.
Proof.
  revert m; induction s as [|c s IH]; intros m; [discriminate|]. simpl.
  destruct (upto_last_rbrace s) as [m0|] eqn:E.
  - intros H; injection H as <-.
    destruct (IH _ eq_refl) as (m' & b & -> & Hs & Hb).
    exists (c :: m'), b. repeat split; [|exact Hb].
    simpl. now rewrite Hs at 1.
  - destruct (N.eqb_spec c RBRACE) as [->|]; [|discriminate].
    intros H; injection H as <-. exists [], s. repeat split.
    clear IH. induction s as [|a s IHs]; [reflexivity|]. simpl in *.
    destruct (upto_last_rbrace s); [discriminate|].
    destruct (a =? RBRACE); [discriminate|]. now apply IHs.
Qed.

Lemma upto_last_rbrace_none_inv (s : text) :
  upto_last_rbrace s = None -> no_rbrace s = true.
Proof.
  induction s as [|a s IH]; [reflexivity|]. simpl.
  destruct (upto_last_rbrace s); [discriminate|].
  destruct (a =? RBRACE); [discriminate|]. intros _. now apply IH.
Qed.

Lemma re_search_braces_no_rbrace (s : text) :
  no_rbrace s = true -> re_search_braces s = None.
Proof.
  induction s as [|c s IH]; [reflexivity|]. simpl.
  destruct (c =? RBRACE); [discriminate|]. simpl. intros H.
  rewrite (upto_last_rbrace_none _ H), (IH H). now destruct (c =? LBRACE).
Qed.

Lemma re_search_braces_inv (s m : text) :
  re_search_braces s = Some m ->
  exists a m' b,
    s = a ++ braced m' ++ b /\ m = braced m'
    /\ no_lbrace a = true /\ no_rbrace b = true.
Proof.
  revert m. induction s as [|c s IH]; intros m; [discriminate|]. simpl.
  assert (Hrec : (c =? LBRACE) = false -> re_search_braces s = Some m ->
                 exists a m' b, c :: s = a ++ braced m' ++ b /\ m = braced m'
                                /\ no_lbrace a = true /\ no_rbrace b = true).
  { intros Hc H. destruct (IH _ H) as (a & m' & b & -> & -> & Ha & Hb).
    exists (c :: a), m', b. repeat split; [|exact Hb]. simpl. now rewrite Hc. }
  destruct (N.eqb_spec c LBRACE) as [->|nc]; [|now apply Hrec].
  destruct (upto_last_rbrace s) as [m0|] eqn:E.
  - intros H; injection H as <-.
    destruct (upto_last_rbrace_spec _ _ E) as (m' & b & -> & Hs & Hb).
    exists [], m', b. repeat split; [|exact Hb].
    unfold braced. simpl. now rewrite Hs at 1.
  - rewrite (re_search_braces_no_rbrace _ (upto_last_rbrace_none_inv _ E)).
    discriminate.
Qed.

(** X3: the text stage 3 hands to the decoder runs from the leftmost [{]
    of the cleaned text to its rightmost [}], and there is such a text
    exactly when some [}] comes after the first [{]. *)
Theorem re_search_braces_spec (s m : text) :
  re_search_braces s = Some m <->
  exists a m' b,
    s = a ++ braced m' ++ b /\ m = braced m'
    /\ no_lbrace a = true /\ no_rbrace b = true.
Proof.
  split; [apply re_search_braces_inv|].
  intros (a & m' & b & -> & -> & Ha & Hb). now apply re_search_braces_span.
Qed.

(** ** Values that are not dicts *)

Lemma strip_ends (c : N) (m : text) (d : N) :
  isspace c = false -> isspace d = false ->
  strip (c :: m ++ [d]) = c :: m ++ [d].
Proof.
  intros Hc Hd. unfold strip. simpl. rewrite Hc.
  change (c :: m ++ [d]) with ((c :: m) ++ [d]).
  rewrite (rstrip_app (c :: m) d [] Hd). reflexivity.
Qed.

Lemma strip_fences_ends (c : N) (m : text) (d : N) :
  isspace c = false -> isspace d = false ->
  occurs FENCE (c :: m ++ [d]) = false ->
  strip_fences (c :: m ++ [d]) = c :: m ++ [d].
Proof.
  intros Hc Hd Hocc. unfold strip_fences, re_sub_fence.
  rewrite (strip_ends c m d Hc Hd).
  change FENCE_JSON with (FENCE ++ of_string "json").
  rewrite (re_sub_fence_id (of_string "json") _ Hocc).
  pose proof (re_sub_fence_id [] _ Hocc) as Hid. rewrite app_nil_r in Hid.
  rewrite Hid. exact (strip_ends c m d Hc Hd).
Qed.

Lemma scan_once_bracketed (n : nat) (s : text) (v : value) (r : text) :
  scan_once n (LBRACKET :: s) = Scanned v r -> exists l, v = JArray l.
Proof.
  destruct n as [|n]; [discriminate|]. cbn [scan_once].
  change (LBRACKET =? DQUOTE) with false.
  change (LBRACKET =? LBRACE) with false. rewrite N.eqb_refl.
  unfold JSONArray. destruct (skip_ws s) as [|c r0]; [discriminate|].
  destruct (c =? RBRACKET); [intros H; injection H as <- _; now exists []|].
  destruct (array_items _ n (c :: r0)) as [vs r'| |]; try discriminate.
  simpl. intros H; injection H as <- _. now exists vs.
Qed.

Lemma json_loads_bracketed_rest (m post : text) (v : value) :
  json_loads (bracketed m) = Some v ->
  (exists l, v = JArray l)
  /\ exists r, skip_ws r = []
               /\ json_loads (bracketed m ++ post)
                  = match skip_ws (r ++ post) with
                    | [] => Some v
                    | _ :: _ => None
                    end.
Proof.
  unfold json_loads, bracketed. cbn [app].
  rewrite !(strip_prefix_mismatch BOM LBRACKET) by discriminate.
  rewrite !(skip_ws_stop LBRACKET) by reflexivity.
  destruct (scan_once _ (LBRACKET :: m ++ [RBRACKET])) as [v0 r| |] eqn:E;
    try discriminate.
  destruct (skip_ws r) eqn:Er; [|discriminate]. intros H; injection H as <-.
  destruct (scan_once_bracketed _ _ _ _ E) as [l ->].
  split; [now exists l|].
  change (LBRACKET :: (m ++ [RBRACKET]) ++ post)
    with ((LBRACKET :: m ++ [RBRACKET]) ++ post).
  assert (Hfuel : (S (length (LBRACKET :: m ++ [RBRACKET]))
                   <= S (length ((LBRACKET :: m ++ [RBRACKET]) ++ post)))%nat)
    by (rewrite (length_app (LBRACKET :: m ++ [RBRACKET]) post); lia).
  rewrite (scan_once_ext _ _ _ _ _ post Hfuel E eq_refl).
  exists r. split; [exact Er|reflexivity].
Qed.

(** X4: an answer that is a JSON array (without code fence inside) is
    returned as the decoded list, although the function is declared to
    return a dict. *)
Theorem parse_json_returns_list (m : text) (v : value) :
  json_loads (bracketed m) = Some v ->
  occurs FENCE (bracketed m) = false ->
  parse_json (bracketed m) = Returned v /\ exists l, v = JArray l.
Proof.
  intros Hv Hocc.
  split; [|exact (proj1 (json_loads_bracketed_rest m [] v Hv))].
  unfold parse_json, bracketed in *. cbv zeta.
  rewrite (strip_fences_ends LBRACKET m RBRACKET eq_refl eq_refl Hocc).
  change (skipn (start_index (LBRACKET :: m ++ [RBRACKET]))
                (LBRACKET :: m ++ [RBRACKET]))
    with (LBRACKET :: m ++ [RBRACKET]).
  now rewrite Hv.
Qed.

Lemma parse_json_returns_list_witness :
  parse_json (lit "[{'day':1}, {'day':2}]")
  = Returned (JArray [JObject [(lit "day", JInt 1)];
                      JObject [(lit "day", JInt 2)]]).
Proof.
  exact (proj1 (parse_json_returns_list
                  (lit "{'day':1}, {'day':2}")
                  (JArray [JObject [(lit "day", JInt 1)];
                           JObject [(lit "day", JInt 2)]])
                  eq_refl eq_refl)).
Defined.

Lemma is_json_ws_isspace (c : N) : is_json_ws c = true -> isspace c = true.
Proof.
  unfold is_json_ws. rewrite !orb_true_iff, !N.eqb_eq.
  intros [[[-> | ->] | ->] | ->]; reflexivity.
Qed.

(** X5: stage 3 looks for braces only.  A JSON array followed by prose
    (no fence, no [{] anywhere) is not recovered: stage 2 fails on the
    extra text and the result is the empty object. *)
Theorem parse_json_loses_list_before_prose (m p : text) (c : N) (v : value) :
  json_loads (bracketed m) = Some v ->
  isspace c = false ->
  occurs FENCE (bracketed m ++ p ++ [c]) = false ->
  no_lbrace (bracketed m ++ p ++ [c]) = true ->
  parse_json (bracketed m ++ p ++ [c]) = Returned EMPTY.
Proof.
  intros Hv Hc Hocc Hnl.
  assert (Hnone : json_loads (bracketed m ++ p ++ [c]) = None).
  { destruct (json_loads_bracketed_rest m (p ++ [c]) v Hv) as (_ & r & _ & ->).
    destruct (skip_ws (r ++ p ++ [c])) eqn:E; [|reflexivity].
    exfalso. apply (skip_ws_reaches (r ++ p ++ [c]) c); [| |exact E].
    - apply in_or_app; right. apply in_or_app; right. now left.
    - destruct (is_json_ws c) eqn:Ew; [|reflexivity].
      apply is_json_ws_isspace in Ew. congruence. }
  assert (Hw : bracketed m ++ p ++ [c]
               = LBRACKET :: (m ++ RBRACKET :: p) ++ [c]).
  { unfold bracketed. cbn [app]. f_equal. now rewrite <- !app_assoc. }
  rewrite Hw in *. unfold parse_json. cbv zeta.
  rewrite (strip_fences_ends LBRACKET _ c eq_refl Hc Hocc).
  change (skipn (start_index (LBRACKET :: (m ++ RBRACKET :: p) ++ [c]))
                (LBRACKET :: (m ++ RBRACKET :: p) ++ [c]))
    with (LBRACKET :: (m ++ RBRACKET :: p) ++ [c]).
  rewrite Hnone. now rewrite (re_search_braces_none _ Hnl).
Qed.

Lemma parse_json_loses_list_before_prose_witness :
  parse_json (lit "[1, 2, 3] are the days.") = Returned EMPTY.
Proof.
  exact (parse_json_loses_list_before_prose
           (lit "1, 2, 3") (lit " are the days") (ch ".")
           (JArray [JInt 1; JInt 2; JInt 3]) eq_refl eq_refl eq_refl eq_refl).
Defined.

(** X6: what [parse_json] returns after stage 2 has failed is a dict: the
    decoded brace span or the empty object.  A value that is not a dict can
    only come from the direct decode of stage 2. *)
Theorem parse_json_fallback_is_dict (t : text) (v : value) :
  json_loads (skipn (start_index (strip_fences t)) (strip_fences t)) = None ->
  parse_json t = Returned v ->
  exists d, v = JObject d.
Proof.
  intros Hnone. unfold parse_json. cbv zeta. rewrite Hnone.
  destruct (re_search_braces (strip_fences t)) as [m|] eqn:E.
  - apply re_search_braces_inv in E as (a & m' & b & _ & -> & _ & _).
    destruct (json_loads (braced m')) as [v0|] eqn:Ev; [|discriminate].
    intros H; injection H as <-. exact (json_loads_braced_object _ _ Ev).
  - intros H; injection H as <-. now exists [].
Qed.

Lemma parse_json_fallback_is_dict_witness :
  parse_json (lit "[see] {'a':1} done") = Returned (JObject [(lit "a", JInt 1)])
  /\ exists d, JObject [(lit "a", JInt 1)] = JObject d.
Proof.
  split; [reflexivity|].
  exact (parse_json_fallback_is_dict
           (lit "[see] {'a':1} done") (JObject [(lit "a", JInt 1)])
           eq_refl eq_refl).
Defined.

(** ** The runs of [plan] *)

Section PlanRuns.

Variables json_dumps py_str : value -> text.
Variable environ : text -> option text.
Variable llm : service.
Variable message : text.

(** The run of [plan] with a key, stage by stage. *)
Lemma plan_run (k0 : N) (k : text) :
  environ KEY_NAME = Some (k0 :: k) ->
  let key := k0 :: k in
  let req1 := intent_request key message in
  plan json_dumps py_str environ llm message []
  = match llm [] req1 with
    | Failure => (Abort Unhandled, [req1])
    | Text a1 =>
        match parse_json a1 with
        | Raised => (Abort Unhandled, [req1])
        | Returned intent =>
            match plan_prompt json_dumps py_str message intent with
            | None => (Abort Unhandled, [req1])
            | Some prompt =>
                let req2 := plan_request key prompt in
                match llm [req1] req2 with
                | Failure => (Abort Unhandled, [req1; req2])
                | Text a2 =>
                    match parse_json a2 with
                    | Raised => (Abort Unhandled, [req1; req2])
                    | Returned p =>
                        (Done (JObject [(of_string "intent", intent);
                                        (of_string "plan", p)]),
                         [req1; req2])
                    end
                end
            end
        end
    end.
Proof.
  intros Hkey. cbv zeta. unfold plan. rewrite Hkey.
  unfold bind, create, parsed, raise, ret, intent_request, plan_request.
  cbn [app].
  destruct (llm [] _) as [a1|]; [|reflexivity].
  destruct (parse_json a1) as [intent|]; [|reflexivity].
  destruct (plan_prompt json_dumps py_str message intent) as [prompt|];
    [|reflexivity].
  cbn [app]. destruct (llm _ _) as [a2|]; [|reflexivity].
  destruct (parse_json a2); reflexivity.
Qed.

Lemma plan_prompt_dict (intent : value) (prompt : text) :
  plan_prompt json_dumps py_str message intent = Some prompt ->
  exists d, intent = JObject d.
Proof.
  destruct intent; try discriminate. intros _. now eexists.
Qed.

End PlanRuns.

(** X7: a run of [POST /api/plan] makes no call without a key and at most
    two calls with one: first the intent request, which carries the user
    message unchanged, then the plan request; both carry the key of the
    environment and the same model, with 400 and 4000 as token limits. *)
Theorem plan_calls_shape
        (json_dumps py_str : value -> text)
        (environ : text -> option text) (llm : service) (message : text) :
  let calls := snd (post_api_plan json_dumps py_str environ llm message) in
  match environ KEY_NAME with
  | None | Some [] => calls = []
  | Some key =>
      calls = [intent_request key message]
      \/ exists prompt,
          calls = [intent_request key message; plan_request key prompt]
  end.
Proof.
  cbv zeta. unfold post_api_plan.
  destruct (environ KEY_NAME) as [[|k0 k]|] eqn:Hkey;
    [unfold plan; rewrite Hkey; reflexivity| |unfold plan; rewrite Hkey; reflexivity].
  rewrite (plan_run json_dumps py_str environ llm message k0 k Hkey). cbv zeta.
  destruct (llm [] _) as [a1|]; [|now left].
  destruct (parse_json a1) as [intent|]; [|now left].
  destruct (plan_prompt _ _ _ _) as [prompt|]; [|now left].
  right. exists prompt.
  destruct (llm _ _) as [a2|]; [destruct (parse_json a2)|]; reflexivity.
Qed.

(** X8: a 200 answer of [POST /api/plan] is made after exactly two calls,
    both answered, and its body has the two keys [intent] and [plan]: the
    value recovered from the first answer, which is a dict, and the value
    recovered from the second answer, whatever it is. *)
Theorem plan_success_shape
        (json_dumps py_str : value -> text)
        (environ : text -> option text) (llm : service) (message : text)
        (body : value) (calls : list request) :
  post_api_plan json_dumps py_str environ llm message = (JSONBody body, calls) ->
  exists key d prompt a1 a2 p,
    environ KEY_NAME = Some key
    /\ calls = [intent_request key message; plan_request key prompt]
    /\ llm [] (intent_request key message) = Text a1
    /\ parse_json a1 = Returned (JObject d)
    /\ llm [intent_request key message] (plan_request key prompt) = Text a2
    /\ parse_json a2 = Returned p
    /\ body = JObject [(of_string "intent", JObject d); (of_string "plan", p)].
Proof.
  unfold post_api_plan.
  destruct (environ KEY_NAME) as [[|k0 k]|] eqn:Hkey;
    [unfold plan; rewrite Hkey; discriminate|
    |unfold plan; rewrite Hkey; discriminate].
  rewrite (plan_run json_dumps py_str environ llm message k0 k Hkey). cbv zeta.
  destruct (llm [] (intent_request (k0 :: k) message)) as [a1|] eqn:E1;
    [|discriminate].
  destruct (parse_json a1) as [intent|] eqn:P1; [|discriminate].
  destruct (plan_prompt json_dumps py_str message intent) as [prompt|] eqn:Hp;
    [|discriminate].
  destruct (plan_prompt_dict _ _ _ _ _ Hp) as [d ->].
  destruct (llm [intent_request (k0 :: k) message]
                (plan_request (k0 :: k) prompt)) as [a2|] eqn:E2;
    [|discriminate].
  destruct (parse_json a2) as [p|] eqn:P2; [|discriminate].
  intros H; injection H as <- <-.
  exists (k0 :: k), d, prompt, a1, a2, p. repeat split; assumption.
Qed.

Lemma plan_success_shape_witness :
  exists key d prompt a1 a2 p,
    (fun _ : text => Some (of_string "secret")) KEY_NAME = Some key
    /\ [intent_request (of_string "secret") (of_string "a trip to Paris");
        plan_request (of_string "secret")
          (lit "User: 'a trip to Paris'" ++ [NEWLINE]
           ++ of_string "Intent: {}" ++ [NEWLINE]
           ++ of_string "Generate ALL 3 days. Budget: 15000 INR. "
           ++ of_string "Destination: Rome. Use real attraction names.")]
       = [intent_request key (of_string "a trip to Paris");
          plan_request key prompt]
    /\ Text (lit "{'destination':'Rome'}") = Text a1
    /\ parse_json a1 = Returned (JObject d)
    /\ Text (lit "{'destination':'Rome'}") = Text a2
    /\ parse_json a2 = Returned p
    /\ JObject [(of_string "intent", JObject [(lit "destination", JString (lit "Rome"))]);
                (of_string "plan", JObject [(lit "destination", JString (lit "Rome"))])]
       = JObject [(of_string "intent", JObject d); (of_string "plan", p)].
Proof.
  exact (plan_success_shape
           (fun _ : value => of_string "{}") str_of_scalar
           (fun _ : text => Some (of_string "secret"))
           (fun (_ : list request) (_ : request) =>
              Text (lit "{'destination':'Rome'}"))
           (of_string "a trip to Paris") _ _ eq_refl).
Defined.

(** X9: when the first answer is not recovered to a dict (the parser
    raises, or returns a list or a scalar), the handler fails with an
    unhandled exception after that one call; the plan request is never
    sent. *)
Theorem plan_stops_without_dict
        (json_dumps py_str : value -> text)
        (environ : text -> option text) (llm : service) (message : text)
        (k0 : N) (k a1 : text) :
  environ KEY_NAME = Some (k0 :: k) ->
  llm [] (intent_request (k0 :: k) message) = Text a1 ->
  (forall d, parse_json a1 <> Returned (JObject d)) ->
  post_api_plan json_dumps py_str environ llm message
  = (Unhandled, [intent_request (k0 :: k) message]).
Proof.
  intros Hkey E1 Hnd. unfold post_api_plan.
  rewrite (plan_run json_dumps py_str environ llm message k0 k Hkey). cbv zeta.
  rewrite E1. destruct (parse_json a1) as [intent|]; [|reflexivity].
  destruct (plan_prompt _ _ _ _) as [prompt|] eqn:Hp; [|reflexivity].
  destruct (plan_prompt_dict _ _ _ _ _ Hp) as [d ->].
  now destruct (Hnd d).
Qed.

Lemma plan_stops_without_dict_witness :
  post_api_plan str_of_scalar str_of_scalar
    (fun _ => Some (of_string "secret"))
    (fun _ _ => Text (lit "['Paris', 'Rome']")) (of_string "a trip")
  = (Unhandled, [intent_request (of_string "secret") (of_string "a trip")]).
Proof.
  apply (plan_stops_without_dict str_of_scalar str_of_scalar
           (fun _ => Some (of_string "secret"))
           (fun _ _ => Text (lit "['Paris', 'Rome']")) (of_string "a trip")
           (ch "s") (of_string "ecret") (lit "['Paris', 'Rome']")
           eq_refl eq_refl).
  intros d H. vm_compute in H. discriminate H.
Defined.

Lemma parse_json_unrecoverable (t : text) :
  no_open t = true -> json_loads (strip_fences t) = None ->
  parse_json t = Returned EMPTY.
Proof.
  intros Ht Hn.
  assert (Hu : no_open (strip_fences t) = true)
    by (eapply forallb_incl;
        [apply Subseq_incl, strip_fences_Subseq|exact Ht]).
  unfold parse_json. cbv zeta. rewrite (start_none _ Hu), Hn.
  now rewrite (re_search_braces_none _ (no_open_no_lbrace _ Hu)).
Qed.

(** X10: silent degradation.  When neither answer holds any JSON (no
    brace, no bracket, not a JSON scalar), the handler still answers 200,
    with empty objects for intent and plan, and the plan request it sent
    carried the three fallbacks 3, 15000 and [destination]. *)
Theorem plan_degrades_to_empty
        (json_dumps py_str : value -> text)
        (environ : text -> option text) (llm : service) (message : text)
        (k0 : N) (k a1 a2 : text) :
  let key := k0 :: k in
  let prompt :=
    lit "User: '" ++ message ++ lit "'" ++ [NEWLINE]
    ++ of_string "Intent: " ++ json_dumps EMPTY ++ [NEWLINE]
    ++ of_string "Generate ALL " ++ py_str (JInt 3)
    ++ of_string " days. Budget: " ++ py_str (JInt 15000)
    ++ of_string " INR. Destination: " ++ py_str (JString (of_string "destination"))
    ++ of_string ". Use real attraction names." in
  environ KEY_NAME = Some key ->
  llm [] (intent_request key message) = Text a1 ->
  no_open a1 = true -> json_loads (strip_fences a1) = None ->
  llm [intent_request key message] (plan_request key prompt) = Text a2 ->
  no_open a2 = true -> json_loads (strip_fences a2) = None ->
  post_api_plan json_dumps py_str environ llm message
  = (JSONBody (JObject [(of_string "intent", EMPTY); (of_string "plan", EMPTY)]),
     [intent_request key message; plan_request key prompt]).
Proof.
  cbv zeta. intros Hkey E1 Ho1 Hn1 E2 Ho2 Hn2. unfold post_api_plan.
  rewrite (plan_run json_dumps py_str environ llm message k0 k Hkey). cbv zeta.
  rewrite E1, (parse_json_unrecoverable a1 Ho1 Hn1).
  change (plan_prompt json_dumps py_str message EMPTY)
    with (Some (lit "User: '" ++ message ++ lit "'" ++ [NEWLINE]
                ++ of_string "Intent: " ++ json_dumps EMPTY ++ [NEWLINE]
                ++ of_string "Generate ALL " ++ py_str (JInt 3)
                ++ of_string " days. Budget: " ++ py_str (JInt 15000)
                ++ of_string " INR. Destination: "
                ++ py_str (JString (of_string "destination"))
                ++ of_string ". Use real attraction names.")).
  cbv iota beta. rewrite E2, (parse_json_unrecoverable a2 Ho2 Hn2). reflexivity.
Qed.

Lemma plan_degrades_to_empty_witness :
  fst (post_api_plan (fun _ => of_string "{}") str_of_scalar
         (fun _ => Some (of_string "secret"))
         (fun _ _ => Text (of_string "Sorry, I cannot help with that."))
         (of_string "a trip"))
  = JSONBody (JObject [(of_string "intent", EMPTY); (of_string "plan", EMPTY)]).
Proof.
  exact (f_equal fst
           (plan_degrades_to_empty (fun _ => of_string "{}") str_of_scalar
              (fun _ => Some (of_string "secret"))
              (fun _ _ => Text (of_string "Sorry, I cannot help with that."))
              (of_string "a trip") (ch "s") (of_string "ecret")
              (of_string "Sorry, I cannot help with that.")
              (of_string "Sorry, I cannot help with that.")
              eq_refl eq_refl eq_refl eq_refl eq_refl eq_refl eq_refl)).
Defined.

(** ** The page script: [esc] *)

Lemma js_replace_all_app (c : N) (by_text a b : text) :
  js_replace_all c by_text (a ++ b)
  = js_replace_all c by_text a ++ js_replace_all c by_text b.
Proof. apply flat_map_app. Qed.

Lemma esc_app (a b : text) : esc (a ++ b) = esc a ++ esc b.
Proof. unfold esc. now rewrite !js_replace_all_app. Qed.

Lemma esc_char_cases (c : N) :
  (c = ch "&" /\ esc_char c = of_string "&amp;")
  \/ (c = ch "<" /\ esc_char c = of_string "&lt;")
  \/ (c = ch ">" /\ esc_char c = of_string "&gt;")
  \/ (c <> ch "&" /\ c <> ch "<" /\ c <> ch ">" /\ esc_char c = [c]).
Proof.
  unfold esc_char.
  destruct (N.eqb_spec c (ch "&")) as [->|Ha]; [now left|].
  destruct (N.eqb_spec c (ch "<")) as [->|Hl]; [now right; left|].
  destruct (N.eqb_spec c (ch ">")) as [->|Hg]; [now right; right; left|].
  now right; right; right.
Qed.

Lemma esc_single (c : N) : esc [c] = esc_char c.
Proof.
  destruct (esc_char_cases c) as [[-> ->]|[[-> ->]|[[-> ->]|(Ha & Hl & Hg & ->)]]];
    try reflexivity.
  unfold esc, js_replace_all. simpl.
  apply N.eqb_neq in Ha, Hl, Hg. rewrite Ha. simpl. rewrite Hl. simpl.
  now rewrite Hg.
Qed.

(** X11: the three replacements of [esc], done one after the other, come
    to one pass that puts [&amp;], [&lt;] or [&gt;] for each [&], [<] or
    [>] and leaves every other character: the ampersands that the first
    replacement writes are not escaped again, and [esc] of a
    concatenation is the concatenation of the [esc]s. *)
Theorem esc_one_pass (s t : text) :
  esc s = flat_map esc_char s /\ esc (s ++ t) = esc s ++ esc t.
Proof.
  split; [|apply esc_app].
  induction s as [|c s IH]; [reflexivity|].
  change (c :: s) with ([c] ++ s). rewrite esc_app, esc_single, IH.
  reflexivity.
Qed.

Lemma esc_flat_map (s : text) : esc s = flat_map esc_char s.
Proof.
  induction s as [|c s IH]; [reflexivity|].
  change (c :: s) with ([c] ++ s). rewrite esc_app, esc_single, IH.
  reflexivity.
Qed.

(** X12: the text [esc] returns contains neither [<] nor [>], so no text
    of the answer can open or close a tag where the page inserts it as
    element content. *)
Theorem esc_no_angle_bracket (s : text) :
  ~ In (ch "<") (esc s) /\ ~ In (ch ">") (esc s).
Proof.
  rewrite esc_flat_map.
  assert (H : forall x, x = ch "<" \/ x = ch ">" ->
                        ~ In x (flat_map esc_char s)).
  { intros x Hx Hin. apply in_flat_map in Hin as (c & _ & Hc).
    destruct (esc_char_cases c)
      as [[-> E]|[[-> E]|[[-> E]|(Ha & Hl & Hg & E)]]];
      rewrite E in Hc; simpl in Hc;
      destruct Hx as [-> | ->];
      repeat (destruct Hc as [Hc|Hc]; try discriminate Hc);
      try contradiction; congruence. }
  split; apply H; auto.
Qed.

(** X13: [esc] loses nothing: two texts with the same escaped form are the
    same text. *)
Theorem esc_injective (s t : text) : esc s = esc t -> s = t.
Proof.
  rewrite !esc_flat_map. revert t.
  induction s as [|a s IH]; intros [|b t] H.
  - reflexivity.
  - exfalso. cbn [flat_map] in H.
    destruct (esc_char_cases b)
      as [[_ E]|[[_ E]|[[_ E]|(_ & _ & _ & E)]]];
      rewrite E in H; cbv [of_string ch] in H; simpl in H; discriminate H.
  - exfalso. cbn [flat_map] in H.
    destruct (esc_char_cases a)
      as [[_ E]|[[_ E]|[[_ E]|(_ & _ & _ & E)]]];
      rewrite E in H; cbv [of_string ch] in H; simpl in H; discriminate H.
  - cbn [flat_map] in H.
    destruct (esc_char_cases a)
      as [[-> Ea]|[[-> Ea]|[[-> Ea]|(Ha1 & Ha2 & Ha3 & Ea)]]];
      destruct (esc_char_cases b)
        as [[-> Eb]|[[-> Eb]|[[-> Eb]|(Hb1 & Hb2 & Hb3 & Eb)]]];
      rewrite ?Ea, ?Eb in H; cbv [of_string ch] in H; simpl in H;
      try discriminate H;
      try (injection H as H; f_equal; now apply IH);
      try (exfalso; injection H as H0 _; subst;
           first [now apply Hb1|now apply Ha1]).
    injection H as -> H. f_equal. now apply IH.
Qed.

Lemma esc_injective_witness :
  of_string "<b>Tom & Jerry</b>" = of_string "<b>Tom & Jerry</b>".
Proof.
  exact (esc_injective (of_string "<b>Tom & Jerry</b>")
                       (of_string "<b>Tom & Jerry</b>") eq_refl).
Defined.

(** ** A fence around the whole answer *)

Lemma lstrip_suffix_space (s : text) :
  exists w, s = w ++ lstrip s /\ forallb isspace w = true.
Proof.
  induction s as [|c s (w & IH & Hw)]; [now exists []|]. simpl.
  destruct (isspace c) eqn:E; [|now exists []].
  exists (c :: w). simpl. rewrite E, Hw. split; [now rewrite <- IH|reflexivity].
Qed.

Lemma rstrip_prefix_space (s : text) :
  exists w, s = rstrip s ++ w /\ forallb isspace w = true.
Proof.
  unfold rstrip. destruct (lstrip_suffix_space (rev s)) as (w & H & Hw).
  exists (rev w). split.
  - rewrite <- rev_app_distr, <- H. now rewrite rev_involutive.
  - rewrite forallb_forall in *. intros x Hx. apply Hw. now apply in_rev.
Qed.

Lemma forallb_isspace_app (a b : text) :
  forallb isspace a = true -> forallb isspace b = true ->
  forallb isspace (a ++ b) = true.
Proof. intros Ha Hb. rewrite forallb_app, Ha, Hb. reflexivity. Qed.

Lemma lstrip_nil_space (s : text) : lstrip s = [] -> forallb isspace s = true.
Proof.
  destruct (lstrip_suffix_space s) as (w & H & Hw). intros E.
  rewrite E, app_nil_r in H. now subst w.
Qed.

Lemma lstrip_app_some (s r : text) :
  lstrip s <> [] -> lstrip (s ++ r) = lstrip s ++ r.
Proof.
  induction s as [|c s IH]; [intros H; now contradiction H|]. simpl.
  destruct (isspace c); [exact IH|reflexivity].
Qed.

(** The text between an opening fence and what follows the answer. *)
Lemma lstrip_answer (t w : text) :
  forallb isspace w = true ->
  exists W, forallb isspace W = true /\ lstrip (t ++ w) = strip t ++ W.
Proof.
  intros Hw. destruct (lstrip t) as [|c r] eqn:E.
  - exists []. split; [reflexivity|].
    rewrite (lstrip_space t w (lstrip_nil_space _ E)), (lstrip_all_space w Hw).
    unfold strip. rewrite E. reflexivity.
  - destruct (rstrip_prefix_space (lstrip t)) as (w0 & H0 & Hw0).
    exists (w0 ++ w). split; [now apply forallb_isspace_app|].
    rewrite lstrip_app_some by (rewrite E; discriminate).
    unfold strip. rewrite H0 at 1. now rewrite <- app_assoc.
Qed.

Section FenceSuffix.

Variable tag : text.
Hypothesis tag_no_backtick : ~ In BACKTICK tag.
Hypothesis tag_no_space : forall c, In c tag -> isspace c = false.

Lemma fence_length : (3 <= length (FENCE ++ tag))%nat.
Proof. rewrite length_app. simpl. lia. Qed.

(** The budget of [re.sub] does not matter once it covers the text. *)
Lemma re_sub_fuel (n : nat) :
  forall m s, (length s <= n)%nat -> (length s <= m)%nat ->
    re_sub_fence_from n (FENCE ++ tag) s = re_sub_fence_from m (FENCE ++ tag) s.
Proof.
  induction n as [|n IH]; intros m s Hn Hm.
  - destruct s; [|simpl in Hn; lia]. destruct m; reflexivity.
  - destruct m as [|m].
    + destruct s; [reflexivity|simpl in Hm; lia].
    + cbn [re_sub_fence_from].
      destruct (strip_prefix (FENCE ++ tag) s) as [rest|] eqn:E.
      * pose proof (strip_prefix_length _ _ _ E) as Hl.
        pose proof fence_length as Hf.
        pose proof (Subseq_length _ _ (lstrip_Subseq rest)) as Hs.
        apply IH; lia.
      * destruct s as [|c s]; [reflexivity|].
        f_equal. apply IH; simpl in *; lia.
Qed.

Lemma re_sub_nil : re_sub_fence (FENCE ++ tag) [] = [].
Proof. reflexivity. Qed.

Lemma re_sub_match (s rest : text) :
  strip_prefix (FENCE ++ tag) s = Some rest ->
  re_sub_fence (FENCE ++ tag) s = re_sub_fence (FENCE ++ tag) (lstrip rest).
Proof.
  intros E. unfold re_sub_fence.
  pose proof (strip_prefix_length _ _ _ E) as Hl.
  pose proof fence_length as Hf.
  pose proof (Subseq_length _ _ (lstrip_Subseq rest)) as Hs.
  destruct (length s) as [|n] eqn:En; [lia|].
  cbn [re_sub_fence_from]. rewrite E. apply re_sub_fuel; lia.
Qed.

Lemma re_sub_emit (c : N) (s : text) :
  strip_prefix (FENCE ++ tag) (c :: s) = None ->
  re_sub_fence (FENCE ++ tag) (c :: s) = c :: re_sub_fence (FENCE ++ tag) s.
Proof.
  intros E. unfold re_sub_fence. cbn [length re_sub_fence_from]. now rewrite E.
Qed.

Lemma re_sub_space (w s : text) :
  forallb isspace w = true ->
  re_sub_fence (FENCE ++ tag) (w ++ s) = w ++ re_sub_fence (FENCE ++ tag) s.
Proof.
  intros Hw. induction w as [|c w IH]; [reflexivity|].
  simpl in Hw. apply andb_true_iff in Hw as [Hc Hw].
  cbn [app]. rewrite re_sub_emit, (IH Hw); [reflexivity|].
  apply strip_prefix_mismatch. intros <-. discriminate Hc.
Qed.

(** A prefix that does not match a text but matches it once extended ends
    in the extension. *)
Lemma strip_prefix_gap (p u v : text) (r : text) :
  strip_prefix p u = None -> strip_prefix p (u ++ v) = Some r ->
  exists c v', v = c :: v' /\ In c p.
Proof.
  revert u; induction p as [|a p IH]; intros u Hn Hs; [discriminate Hn|].
  destruct u as [|b u].
  - destruct v as [|c v']; [discriminate Hs|]. simpl in Hs.
    destruct (N.eqb_spec a c) as [->|]; [|discriminate Hs].
    exists c, v'. split; [reflexivity|now left].
  - simpl in Hn, Hs. destruct (a =? b); [|discriminate Hs].
    destruct (IH u Hn Hs) as (c & v' & -> & Hc).
    exists c, v'. split; [reflexivity|now right].
Qed.

Lemma space_not_backtick (c : N) : isspace c = true -> c <> BACKTICK.
Proof. intros H ->. discriminate H. Qed.

Lemma fence_after_space (W V : text) :
  forallb isspace W = true -> W ++ FENCE = BACKTICK :: V -> W = [].
Proof.
  intros HW HV. destruct W as [|w W']; [reflexivity|].
  injection HV as Hw' _. subst w. discriminate HW.
Qed.

(** The only match that the closing fence completes: one or two backticks
    at the end of the text, before a bare fence. *)
Lemma straddle (x W r : text) :
  x <> [] -> forallb isspace W = true ->
  strip_prefix (FENCE ++ tag) x = None ->
  strip_prefix (FENCE ++ tag) (x ++ W ++ FENCE) = Some r ->
  tag = [] /\ W = [] /\ r = x /\ lstrip x = x.
Proof.
  intros Hx HW Hn Hs.
  assert (Htag : forall V q, strip_prefix tag (BACKTICK :: V) = Some q -> tag = []).
  { intros V q H. destruct tag as [|a tg]; [reflexivity|]. exfalso.
    simpl in H. destruct (N.eqb_spec a BACKTICK) as [->|]; [|discriminate H].
    apply tag_no_backtick. now left. }
  destruct x as [|c [|d [|e u]]]; [congruence| | |].
  - (* one character *)
    cbn [app] in Hs. unfold FENCE at 1 in Hs. cbn [app strip_prefix] in Hs.
    destruct (N.eqb_spec BACKTICK c) as [<-|]; [|discriminate Hs].
    destruct (W ++ FENCE) as [|w V] eqn:EV; [discriminate Hs|].
    destruct (N.eqb_spec BACKTICK w) as [<-|]; [|discriminate Hs].
    pose proof (fence_after_space W V HW EV) as ->. cbn [app] in EV.
    injection EV as <-. cbn [strip_prefix] in Hs.
    rewrite N.eqb_refl in Hs.
    pose proof (Htag _ _ Hs) as Ht. rewrite Ht in *.
    injection Hs as <-. repeat split; reflexivity.
  - (* two characters *)
    cbn [app] in Hs. unfold FENCE at 1 in Hs. cbn [app strip_prefix] in Hs.
    destruct (N.eqb_spec BACKTICK c) as [<-|]; [|discriminate Hs].
    destruct (N.eqb_spec BACKTICK d) as [<-|]; [|discriminate Hs].
    destruct (W ++ FENCE) as [|w V] eqn:EV; [discriminate Hs|].
    destruct (N.eqb_spec BACKTICK w) as [<-|]; [|discriminate Hs].
    pose proof (fence_after_space W V HW EV) as ->. cbn [app] in EV.
    injection EV as <-.
    pose proof (Htag _ _ Hs) as Ht. rewrite Ht in *.
    injection Hs as <-. repeat split; reflexivity.
  - (* three characters or more: the tag would have to end in the fence *)
    exfalso. unfold FENCE at 1 in Hn. unfold FENCE at 1 in Hs.
    cbn [app strip_prefix] in Hn, Hs.
    destruct (BACKTICK =? c); [|discriminate Hs].
    destruct (BACKTICK =? d); [|discriminate Hs].
    destruct (BACKTICK =? e); [|discriminate Hs].
    destruct (strip_prefix_gap _ _ _ _ Hn Hs) as (a & V' & HV & Ha).
    destruct W as [|w W'].
    + cbn [app] in HV. injection HV as <- _. now apply tag_no_backtick.
    + cbn [app] in HV. injection HV as <- _.
      simpl in HW. apply andb_true_iff in HW as [Hw _].
      rewrite (tag_no_space _ Ha) in Hw. discriminate Hw.
Qed.

(** [re.sub] on a text followed by white space and a closing fence. *)
Lemma re_sub_before_fence (k : nat) :
  forall x W,
    (length x <= k)%nat -> forallb isspace W = true ->
    exists W',
      forallb isspace W' = true
      /\ re_sub_fence (FENCE ++ tag) (x ++ W ++ FENCE)
         = re_sub_fence (FENCE ++ tag) x ++ W'
           ++ re_sub_fence (FENCE ++ tag) FENCE.
Proof.
  induction k as [|k IH]; intros x W Hk HW.
  - destruct x; [|simpl in Hk; lia]. exists W. split; [exact HW|].
    cbn [app]. now rewrite re_sub_space, re_sub_nil.
  - destruct x as [|c x].
    { exists W. split; [exact HW|].
      cbn [app]. now rewrite re_sub_space, re_sub_nil. }
    destruct (strip_prefix (FENCE ++ tag) (c :: x)) as [rest|] eqn:E.
    + (* a match inside the text *)
      pose proof (strip_prefix_app _ _ _ (W ++ FENCE) E) as E'.
      rewrite (re_sub_match _ _ E), (re_sub_match _ _ E').
      destruct (lstrip rest) as [|c' r'] eqn:El.
      * exists []. split; [reflexivity|].
        rewrite (lstrip_space rest _ (lstrip_nil_space _ El)).
        rewrite (lstrip_space W _ HW). rewrite re_sub_nil. reflexivity.
      * rewrite lstrip_app_some by (rewrite El; discriminate). rewrite El.
        apply IH; [|exact HW].
        pose proof (strip_prefix_length _ _ _ E) as Hl.
        pose proof fence_length as Hf.
        pose proof (Subseq_length _ _ (lstrip_Subseq rest)) as Hs.
        rewrite El in Hs. simpl in *. lia.
    + destruct (strip_prefix (FENCE ++ tag) ((c :: x) ++ W ++ FENCE))
        as [r|] eqn:E'.
      * (* the closing fence completes a match *)
        destruct (straddle (c :: x) W r ltac:(discriminate) HW E E')
          as (Ht & -> & -> & Hl).
        exists []. split; [reflexivity|].
        rewrite (re_sub_match _ _ E'), Hl.
        assert (HF : re_sub_fence (FENCE ++ tag) FENCE = []).
        { rewrite Ht. reflexivity. }
        rewrite HF. now rewrite !app_nil_r.
      * (* no match here *)
        cbn [app] in E'. cbn [app].
        rewrite (re_sub_emit _ _ E'), (re_sub_emit _ _ E).
        destruct (IH x W ltac:(simpl in Hk; lia) HW) as (W' & HW' & ->).
        exists W'. split; [exact HW'|reflexivity].
Qed.

End FenceSuffix.

(** Stage 1 on an answer inside a [json] fence. *)
Lemma strip_fences_fenced (w t w' : text) :
  forallb isspace w = true -> forallb isspace w' = true ->
  strip_fences (FENCE_JSON ++ w ++ t ++ w' ++ FENCE) = strip_fences t.
Proof.
  intros Hw Hw'.
  assert (Hj1 : ~ In BACKTICK (of_string "json"))
    by (simpl; intros [H|[H|[H|[H|[]]]]]; discriminate H).
  assert (Hj2 : forall c, In c (of_string "json") -> isspace c = false)
    by (simpl; intros c [<-|[<-|[<-|[<-|[]]]]]; reflexivity).
  assert (Hn1 : ~ In BACKTICK []) by (intros []).
  assert (Hn2 : forall c, In c (@nil N) -> isspace c = false) by (intros c []).
  unfold strip_fences.
  (* the outer strip leaves the fenced text as it is *)
  assert (Hs : strip (FENCE_JSON ++ w ++ t ++ w' ++ FENCE)
               = FENCE_JSON ++ w ++ t ++ w' ++ FENCE).
  { replace (FENCE_JSON ++ w ++ t ++ w' ++ FENCE)
      with (BACKTICK :: ([BACKTICK; BACKTICK] ++ of_string "json" ++ w ++ t
                         ++ w' ++ [BACKTICK; BACKTICK]) ++ [BACKTICK])
      by (unfold FENCE_JSON, FENCE; cbn [app of_string];
          rewrite <- !app_assoc; reflexivity).
    now apply strip_ends. }
  rewrite Hs.
  (* the opening fence goes with the white space after it *)
  change FENCE_JSON with (FENCE ++ of_string "json") at 1 2.
  rewrite (re_sub_match (of_string "json") _ (w ++ t ++ w' ++ FENCE))
    by now apply strip_prefix_Some.
  rewrite (lstrip_space w _ Hw).
  destruct (lstrip_answer t w' Hw') as (W & HW & HlW).
  replace (lstrip (t ++ w' ++ FENCE)) with (strip t ++ W ++ FENCE).
  2:{ rewrite (app_assoc t w' FENCE). unfold FENCE.
      rewrite (lstrip_app (t ++ w') BACKTICK [BACKTICK; BACKTICK] eq_refl), HlW.
      now rewrite <- app_assoc. }
  (* the two substitutions, then the closing fence *)
  destruct (re_sub_before_fence (of_string "json") Hj1 Hj2 _ (strip t) W
              (le_n _) HW) as (W1 & HW1 & ->).
  replace (re_sub_fence (FENCE ++ of_string "json") FENCE) with FENCE
    by reflexivity.
  set (y := re_sub_fence (FENCE ++ of_string "json") (strip t)).
  pose proof (re_sub_before_fence [] Hn1 Hn2 _ y W1 (le_n _) HW1)
    as (W2 & HW2 & H2).
  rewrite app_nil_r in H2. rewrite H2.
  replace (re_sub_fence FENCE FENCE) with (@nil N) by reflexivity.
  rewrite app_nil_r.
  pose proof (strip_space [] (re_sub_fence FENCE y) W2 eq_refl HW2) as H3.
  cbn [app] in H3. exact H3.
Qed.

(** X14: putting the answer inside a [```json ... ```] fence, with any
    white space after the opening and before the closing fence, never
    changes what [parse_json] does with it. *)
Theorem parse_json_ignores_json_fence (w t w' : text) :
  forallb isspace w = true -> forallb isspace w' = true ->
  parse_json (FENCE_JSON ++ w ++ t ++ w' ++ FENCE) = parse_json t.
Proof.
  intros Hw Hw'. unfold parse_json.
  now rewrite (strip_fences_fenced w t w' Hw Hw').
Qed.

Lemma parse_json_ignores_json_fence_witness :
  parse_json (FENCE_JSON ++ [NEWLINE] ++ lit "{'a': [1, 2]}" ++ [NEWLINE] ++ FENCE)
  = parse_json (lit "{'a': [1, 2]}").
Proof.
  exact (parse_json_ignores_json_fence [NEWLINE] (lit "{'a': [1, 2]}") [NEWLINE]
           eq_refl eq_refl).
Defined.

Lemma sibling_objects_raise_witness :
  parse_json (lit "{'day':1}, then {'day':2}") = Raised.
Proof.
  exact (sibling_objects_raise (lit "'day':1") (lit ", then ") (lit "'day':2")
           (JObject [(lit "day", JInt 1)]) eq_refl eq_refl).
Defined.
